(** * roshi: the Prometheus instrumentation facade

    A shallow embedding of [instrumentation/prometheus/prometheus.go]:
    the [PrometheusInstrumentation] struct, its constructor [New] and
    its 28 event methods, over a small model of the metrics library the
    facade calls into (counters, histograms and the registry of named
    metrics).  [Install], which only mounts the HTTP handler of the
    library, is left out. *)

From Stdlib Require Import ZArith Lia.
From stdpp Require Import base tactics option list strings pretty.

Local Open Scope Z_scope.

(** * Definitions *)

(** ** float64 values of integers

    Every number the facade hands to the metrics library is the result
    of [float64(n)] for a Go [int] or of [float64(d.Nanoseconds())] for
    an [int64].  Such a float64 is integer valued, and so is the sum of
    two of them, so these floats are represented by their value in [Z].
    A conversion rounds to the nearest value with a 53 bit significand,
    ties to even, as the Go language prescribes.  The exponent range is
    not modelled: with arguments of at most 64 bits the values met here
    stay far below [2^1024]. *)
Module Float64.

(** Integer valued float64s, by their value. *)
Definition float64 := Z.

(** Number of low bits of [a >= 0] that do not fit the significand. *)
Definition ulp_exp (a : Z) : Z := Z.max 0 (Z.log2 a - 52).

(** Rounding of a magnitude [a >= 0], ties to even. *)
Definition round_mag (a : Z) : Z :=
  let u := 2 ^ ulp_exp a in
  let q := a / u in
  let r := a mod u in
  if 2 * r <? u then q * u
  else if u <? 2 * r then (q + 1) * u
  else if Z.even q then q * u else (q + 1) * u.

(** Rounding of an integer to the format. *)
Definition round (x : Z) : float64 :=
  if x <? 0 then - round_mag (- x) else round_mag x.

(** The Go conversion [float64(n)] of an integer. *)
Definition of_int (n : Z) : float64 := round n.

(** The Go addition of two integer valued float64s. *)
Definition add (x y : float64) : float64 := round (x + y).

(** A magnitude that the format holds exactly. *)
Definition representable (a : Z) : Prop := a mod 2 ^ ulp_exp a = 0.

End Float64.

Import Float64.

(** ** Go base types used by the facade *)

(** Go's [int], 64 bits wide on the platforms the service is built
    for.  The statements below are made for all integers: none relies
    on the width. *)
Definition int := Z.

(** [time.Duration]: an [int64] count of nanoseconds. *)
Definition Duration := Z.

(** [d.Nanoseconds()] *)
Definition Nanoseconds (d : Duration) : Z := d.

(** [float64(n)] *)
Definition float64_of_int (n : Z) : float64 := Float64.of_int n.

(** ** The metrics library

    The package [github.com/prometheus/client_golang/prometheus] is
    imported by the facade and is not part of this repository.  Its
    objects live on the heap and are shared by reference between the
    registry and the facade, so the model has an explicit store.  All
    updates of the facade use [prometheus.NilLabels]; the label
    argument is therefore left out. *)

(** A reference to a metric object. *)
Definition loc := nat.

(** The two types of metric. *)
Inductive metric_kind := KCounter | KHistogram.

(** Modelled from the spec: the state of a Counter (a numeric value
    starting at 0) and of a Histogram (what was observed, in order; the
    count, the sum and the bucket counts are functions of it).  The
    metric types of the library are missing from the sources. *)
Inductive metric :=
| CounterObj (value : float64)
| HistogramObj (samples : list float64).

(** The type of a metric object. *)
Definition kind_of (m : metric) : metric_kind :=
  match m with
  | CounterObj _ => KCounter
  | HistogramObj _ => KHistogram
  end.

(** The interface values [prometheus.Counter] and [prometheus.Histogram]
    held in the fields of the facade. *)
Definition Counter := loc.
Definition Histogram := loc.

(** Modelled from the spec: one entry of the MetricRegistry, which maps
    a unique name to one metric; the registry of the library is missing
    from the sources. *)
Record registration := Registration {
  reg_name : string;
  reg_help : string;
  reg_metric : loc
}.

(** What can be done to a metric object. *)
Inductive update :=
| Increment
| IncrementBy (v : float64)
| Add (v : float64).

(** Calls into the library, in the order they happen. *)
Inductive effect :=
| EvNew (l : loc) (k : metric_kind)
| EvRegister (name : string) (l : loc)
| EvUpdate (l : loc) (u : update).

(** The state of the process: the heap of metric objects, the default
    registry (in registration order) and the calls made so far. *)
Record world := World {
  heap : list metric;
  registry : list registration;
  trace : list effect
}.

(** The state of a process that has not touched the library yet. *)
Definition boot : world := World [] [] [].

(** What aborts the process. *)
Inductive fatal :=
| AlreadyRegistered (name : string)
| InvalidMetric (l : loc).

(** A computation ends with a result and a new state, or aborts. *)
Inductive outcome (A : Type) :=
| Done (a : A) (w : world)
| Panic (f : fatal).
Arguments Done {A} a w.
Arguments Panic {A} f.

(** Computations over the process state that may abort the process. *)
Definition M (A : Type) : Type := world -> outcome A.

(** Returning a value, and running one computation after another: an
    abort of the first is the abort of the whole, as a Go panic that
    nothing recovers. *)
#[export] Instance M_ret : MRet M := fun A a w => Done a w.

#[export] Instance M_bind : MBind M := fun A B f m w =>
  match m w with
  | Done a w' => f a w'
  | Panic e => Panic e
  end.

(** A new object on the heap; its reference is its position. *)
Definition alloc (m : metric) : M loc := fun w =>
  Done (length (heap w))
       (World (heap w ++ [m]) (registry w)
              (trace w ++ [EvNew (length (heap w)) (kind_of m)])).

(** Modelled from the spec: [prometheus.NewCounter()], missing from the
    sources; a fresh counter whose value starts at 0. *)
Definition NewCounter : M Counter := alloc (CounterObj 0).

(** Modelled from the spec: [prometheus.NewDefaultHistogram()], missing
    from the sources; a fresh histogram without observations. *)
Definition NewDefaultHistogram : M Histogram := alloc (HistogramObj []).

(** Modelled from the spec: the effect of one update on a metric object
    ([Increment] adds 1, [IncrementBy n] has the side effect
    [value += n], an observation is recorded by the histogram); the
    methods of the library's metric types are missing from the sources.
    The value and the delta are float64s, so the sum is a float64 sum.
    No input is clamped: the specification records that the source
    clamps no negative input.  An update that the object does not
    support has no result. *)
Definition apply_update (u : update) (m : metric) : option metric :=
  match u, m with
  | Increment, CounterObj x => Some (CounterObj (Float64.add x 1))
  | IncrementBy v, CounterObj x => Some (CounterObj (Float64.add x v))
  | Add v, HistogramObj s => Some (HistogramObj (s ++ [v]))
  | _, _ => None
  end.

(** A method call through an interface value: the object is found
    through the reference; a reference to nothing (a nil interface)
    aborts. *)
Definition update_metric (l : loc) (u : update) : M unit := fun w =>
  match heap w !! l with
  | Some m =>
      match apply_update u m with
      | Some m' =>
          Done tt (World (<[l := m']> (heap w)) (registry w)
                         (trace w ++ [EvUpdate l u]))
      | None => Panic (InvalidMetric l)
      end
  | None => Panic (InvalidMetric l)
  end.

(** Modelled from the spec: [c.Increment(prometheus.NilLabels)] of the
    library's Counter, which adds 1. *)
Definition Counter_Increment (c : Counter) : M unit :=
  update_metric c Increment.

(** Modelled from the spec: [c.IncrementBy(prometheus.NilLabels, v)] of
    the library's Counter, which adds [v]. *)
Definition Counter_IncrementBy (c : Counter) (v : float64) : M unit :=
  update_metric c (IncrementBy v).

(** Modelled from the spec: [h.Add(prometheus.NilLabels, v)] of the
    library's Histogram, which records the observation [v]. *)
Definition Histogram_Add (h : Histogram) (v : float64) : M unit :=
  update_metric h (Add v).

(** Modelled from the spec: whether the registry holds an entry under
    [name]; part of [Register], which is missing from the sources. *)
Definition is_registered (name : string) (r : list registration) : bool :=
  existsb (fun e => String.eqb name (reg_name e)) r.

(** Modelled from the spec: [prometheus.Register(name, help, labels,
    metric)] on the default registry, missing from the sources: it
    binds the name to the metric and fails fatally if the name is
    already registered. *)
Definition Register (name help : string) (m : loc) : M unit := fun w =>
  if is_registered name (registry w)
  then Panic (AlreadyRegistered name)
  else Done tt (World (heap w) (registry w ++ [Registration name help m])
                      (trace w ++ [EvRegister name m])).

(** The value of the counter at [l]. *)
Definition counter_value (w : world) (l : loc) : option float64 :=
  match heap w !! l with
  | Some (CounterObj v) => Some v
  | _ => None
  end.

(** The observations of the histogram at [l]. *)
Definition histogram_samples (w : world) (l : loc) : option (list float64) :=
  match heap w !! l with
  | Some (HistogramObj s) => Some s
  | _ => None
  end.

(** Modelled from the spec: the running sum of a Histogram, missing
    from the sources. *)
Definition histogram_sum (s : list float64) : float64 :=
  foldl Float64.add 0 s.

(** Modelled from the spec: the total count of a Histogram, missing
    from the sources. *)
Definition histogram_count (s : list float64) : Z :=
  Z.of_nat (length s).

(** Modelled from the spec: the count of the bucket of a Histogram
    with the upper bound [le], missing from the sources. *)
Definition bucket_count (s : list float64) (le : Z) : Z :=
  Z.of_nat (length (filter (fun v => v <= le) s)).

(** Modelled from the spec: the bucket boundaries of the exposition are
    a choice of the implementation; here the decades from one
    microsecond to ten seconds, in nanoseconds. *)
Definition bucket_bounds : list Z :=
  [10 ^ 3; 10 ^ 4; 10 ^ 5; 10 ^ 6; 10 ^ 7; 10 ^ 8; 10 ^ 9; 10 ^ 10].

(** Modelled from the spec: the type as the exposition prints it; part
    of [Render], which is missing from the sources. *)
Definition type_name (m : metric) : string :=
  match m with
  | CounterObj _ => "counter"
  | HistogramObj _ => "histogram"
  end.

(** Modelled from the spec: the lines of a stanza that carry values;
    part of [Render], which is missing from the sources. *)
Definition render_values (name : string) (m : metric) : list string :=
  match m with
  | CounterObj v => [name +:+ " " +:+ pretty v]
  | HistogramObj s =>
      ((fun b => name +:+ "_bucket{le=" +:+ pretty b +:+ "} "
                 +:+ pretty (bucket_count s b)) <$> bucket_bounds)
      ++ [name +:+ "_sum " +:+ pretty (histogram_sum s);
          name +:+ "_count " +:+ pretty (histogram_count s)]
  end.

(** Modelled from the spec: the stanza of one registered metric; part
    of [Render], which is missing from the sources. *)
Definition render_entry (h : list metric) (e : registration) : list string :=
  match h !! reg_metric e with
  | Some m =>
      ["# HELP " +:+ reg_name e +:+ " " +:+ reg_help e;
       "# TYPE " +:+ reg_name e +:+ " " +:+ type_name m]
      ++ render_values (reg_name e) m
  | None => []
  end.

(** Modelled from the spec: [Render()], the text served by the
    exposition endpoint: one stanza per registered metric, in
    registration order.  The handler of the library is missing from the
    sources. *)
Definition Render (w : world) : list string :=
  concat (render_entry (heap w) <$> registry w).

(** ** The facade *)

(** [PrometheusInstrumentation] holds metrics for all instrumented
    methods. *)
Record PrometheusInstrumentation := {
  insertCallCount : Counter;
  insertRecordCount : Counter;
  insertCallDuration : Histogram;
  insertRecordDuration : Histogram;
  insertQuorumFailureCount : Counter;
  selectCallCount : Counter;
  selectKeysCount : Counter;
  selectSendToCount : Counter;
  selectFirstResponseDuration : Histogram;
  selectPartialErrorCount : Counter;
  selectBlockingDuration : Histogram;
  selectOverheadDuration : Histogram;
  selectDuration : Histogram;
  selectSendAllPromotionCount : Counter;
  selectRetrievedCount : Counter;
  selectReturnedCount : Counter;
  selectRepairNeededCount : Counter;
  deleteCallCount : Counter;
  deleteRecordCount : Counter;
  deleteCallDuration : Histogram;
  deleteRecordDuration : Histogram;
  deleteQuorumFailureCount : Counter;
  repairCallCount : Counter;
  repairRequestCount : Counter;
  repairDiscardedCount : Counter;
  repairWriteSuccessCount : Counter;
  repairWriteFailureCount : Counter;
  walkKeysCount : Counter
}.

(** [New] creates the 28 metrics, in the order of the fields, then
    registers each under the prefix followed by its name, and returns
    the struct. *)
Definition New (prefix : string) : M PrometheusInstrumentation :=
  insertCallCount_ ← NewCounter;
  insertRecordCount_ ← NewCounter;
  insertCallDuration_ ← NewDefaultHistogram;
  insertRecordDuration_ ← NewDefaultHistogram;
  insertQuorumFailureCount_ ← NewCounter;
  selectCallCount_ ← NewCounter;
  selectKeysCount_ ← NewCounter;
  selectSendToCount_ ← NewCounter;
  selectFirstResponseDuration_ ← NewDefaultHistogram;
  selectPartialErrorCount_ ← NewCounter;
  selectBlockingDuration_ ← NewDefaultHistogram;
  selectOverheadDuration_ ← NewDefaultHistogram;
  selectDuration_ ← NewDefaultHistogram;
  selectSendAllPromotionCount_ ← NewCounter;
  selectRetrievedCount_ ← NewCounter;
  selectReturnedCount_ ← NewCounter;
  selectRepairNeededCount_ ← NewCounter;
  deleteCallCount_ ← NewCounter;
  deleteRecordCount_ ← NewCounter;
  deleteCallDuration_ ← NewDefaultHistogram;
  deleteRecordDuration_ ← NewDefaultHistogram;
  deleteQuorumFailureCount_ ← NewCounter;
  repairCallCount_ ← NewCounter;
  repairRequestCount_ ← NewCounter;
  repairDiscardedCount_ ← NewCounter;
  repairWriteSuccessCount_ ← NewCounter;
  repairWriteFailureCount_ ← NewCounter;
  walkKeysCount_ ← NewCounter;
  let i := {|
    insertCallCount := insertCallCount_;
    insertRecordCount := insertRecordCount_;
    insertCallDuration := insertCallDuration_;
    insertRecordDuration := insertRecordDuration_;
    insertQuorumFailureCount := insertQuorumFailureCount_;
    selectCallCount := selectCallCount_;
    selectKeysCount := selectKeysCount_;
    selectSendToCount := selectSendToCount_;
    selectFirstResponseDuration := selectFirstResponseDuration_;
    selectPartialErrorCount := selectPartialErrorCount_;
    selectBlockingDuration := selectBlockingDuration_;
    selectOverheadDuration := selectOverheadDuration_;
    selectDuration := selectDuration_;
    selectSendAllPromotionCount := selectSendAllPromotionCount_;
    selectRetrievedCount := selectRetrievedCount_;
    selectReturnedCount := selectReturnedCount_;
    selectRepairNeededCount := selectRepairNeededCount_;
    deleteCallCount := deleteCallCount_;
    deleteRecordCount := deleteRecordCount_;
    deleteCallDuration := deleteCallDuration_;
    deleteRecordDuration := deleteRecordDuration_;
    deleteQuorumFailureCount := deleteQuorumFailureCount_;
    repairCallCount := repairCallCount_;
    repairRequestCount := repairRequestCount_;
    repairDiscardedCount := repairDiscardedCount_;
    repairWriteSuccessCount := repairWriteSuccessCount_;
    repairWriteFailureCount := repairWriteFailureCount_;
    walkKeysCount := walkKeysCount_
  |} in
  Register (prefix +:+ "insert_call_count")
    "How many insert calls have been made."
    (insertCallCount i);;
  Register (prefix +:+ "insert_record_count")
    "How many records have been inserted."
    (insertRecordCount i);;
  Register (prefix +:+ "insert_call_duration_nanoseconds")
    "Insert duration per-call."
    (insertCallDuration i);;
  Register (prefix +:+ "insert_record_duration_nanoseconds")
    "Insert duration per-record."
    (insertRecordDuration i);;
  Register (prefix +:+ "insert_quorum_failure_count")
    "Insert quorum failure count."
    (insertQuorumFailureCount i);;
  Register (prefix +:+ "select_call_count")
    "How many select calls have been made."
    (selectCallCount i);;
  Register (prefix +:+ "select_keys_count")
    "How many keys have been selected."
    (selectKeysCount i);;
  Register (prefix +:+ "select_send_to_count")
    "How many clusters have received select calls."
    (selectSendToCount i);;
  Register (prefix +:+ "select_first_response_duration_nanoseconds")
    "Select first response duration."
    (selectFirstResponseDuration i);;
  Register (prefix +:+ "select_partial_error_count")
    "How many partial errors have occurred in selects."
    (selectPartialErrorCount i);;
  Register (prefix +:+ "select_blocking_duration_nanoseconds")
    "Select blocking duration."
    (selectBlockingDuration i);;
  Register (prefix +:+ "select_overhead_duration_nanoseconds")
    "Select overhead duration."
    (selectOverheadDuration i);;
  Register (prefix +:+ "select_duration_nanoseconds")
    "Overall select duration."
    (selectDuration i);;
  Register (prefix +:+ "select_send_all_promotion_count")
    "How many select requests were promoted to a send-all, in appropriate read strategies."
    (selectSendAllPromotionCount i);;
  Register (prefix +:+ "select_retrieved_count")
    "How many key-score-member tuples have been retrieved from clusters by select calls."
    (selectRetrievedCount i);;
  Register (prefix +:+ "select_returned_count")
    "How many key-score-member tuples have been returned to clients by select calls."
    (selectReturnedCount i);;
  Register (prefix +:+ "select_repair_needed_count")
    "How many repairs have been detected and requested by select calls."
    (selectRepairNeededCount i);;
  Register (prefix +:+ "delete_call_count")
    "How many delete calls have been made."
    (deleteCallCount i);;
  Register (prefix +:+ "delete_record_count")
    "How many records have been deleted in delete calls."
    (deleteRecordCount i);;
  Register (prefix +:+ "delete_call_duration_nanoseconds")
    "Delete duration, per-call."
    (deleteCallDuration i);;
  Register (prefix +:+ "delete_record_duration_nanoseconds")
    "Delete duration, per-record."
    (deleteRecordDuration i);;
  Register (prefix +:+ "delete_quorum_failure_count")
    "Delete quorum failure count."
    (deleteQuorumFailureCount i);;
  Register (prefix +:+ "repair_call_count")
    "How many repair calls have been made."
    (repairCallCount i);;
  Register (prefix +:+ "repair_request_count")
    "How many key-member tuples have been repaired."
    (repairRequestCount i);;
  Register (prefix +:+ "repair_discarded_count")
    "How many repair calls have been discarded due to rate or buffer limits."
    (repairDiscardedCount i);;
  Register (prefix +:+ "repair_write_success_count")
    "Repair write success count."
    (repairWriteSuccessCount i);;
  Register (prefix +:+ "repair_write_failure_count")
    "Repair write failure count."
    (repairWriteFailureCount i);;
  Register (prefix +:+ "walk_keys_count")
    "How many keys have been walked by the walker process."
    (walkKeysCount i);;
  mret i.

(** [InsertCall] satisfies the Instrumentation interface. *)
Definition InsertCall (i : PrometheusInstrumentation) : M unit :=
  Counter_Increment (insertCallCount i).

(** [InsertRecordCount] satisfies the Instrumentation interface. *)
Definition InsertRecordCount (i : PrometheusInstrumentation)
    (n : int) : M unit :=
  Counter_IncrementBy (insertRecordCount i) (float64_of_int n).

(** [InsertCallDuration] satisfies the Instrumentation interface. *)
Definition InsertCallDuration (i : PrometheusInstrumentation)
    (d : Duration) : M unit :=
  Histogram_Add (insertCallDuration i) (float64_of_int (Nanoseconds d)).

(** [InsertRecordDuration] satisfies the Instrumentation interface. *)
Definition InsertRecordDuration (i : PrometheusInstrumentation)
    (d : Duration) : M unit :=
  Histogram_Add (insertRecordDuration i) (float64_of_int (Nanoseconds d)).

(** [InsertQuorumFailure] satisfies the Instrumentation interface. *)
Definition InsertQuorumFailure (i : PrometheusInstrumentation) : M unit :=
  Counter_Increment (insertQuorumFailureCount i).

(** [SelectCall] satisfies the Instrumentation interface. *)
Definition SelectCall (i : PrometheusInstrumentation) : M unit :=
  Counter_Increment (selectCallCount i).

(** [SelectKeys] satisfies the Instrumentation interface. *)
Definition SelectKeys (i : PrometheusInstrumentation) (n : int) : M unit :=
  Counter_IncrementBy (selectKeysCount i) (float64_of_int n).

(** [SelectSendTo] satisfies the Instrumentation interface. *)
Definition SelectSendTo (i : PrometheusInstrumentation) (n : int) : M unit :=
  Counter_IncrementBy (selectSendToCount i) (float64_of_int n).

(** [SelectFirstResponseDuration] satisfies the Instrumentation interface. *)
Definition SelectFirstResponseDuration (i : PrometheusInstrumentation)
    (d : Duration) : M unit :=
  Histogram_Add (selectFirstResponseDuration i) (float64_of_int (Nanoseconds d)).

(** [SelectPartialError] satisfies the Instrumentation interface. *)
Definition SelectPartialError (i : PrometheusInstrumentation) : M unit :=
  Counter_Increment (selectPartialErrorCount i).

(** [SelectBlockingDuration] satisfies the Instrumentation interface. *)
Definition SelectBlockingDuration (i : PrometheusInstrumentation)
    (d : Duration) : M unit :=
  Histogram_Add (selectBlockingDuration i) (float64_of_int (Nanoseconds d)).

(** [SelectOverheadDuration] satisfies the Instrumentation interface. *)
Definition SelectOverheadDuration (i : PrometheusInstrumentation)
    (d : Duration) : M unit :=
  Histogram_Add (selectOverheadDuration i) (float64_of_int (Nanoseconds d)).

(** [SelectDuration] satisfies the Instrumentation interface. *)
Definition SelectDuration (i : PrometheusInstrumentation)
    (d : Duration) : M unit :=
  Histogram_Add (selectDuration i) (float64_of_int (Nanoseconds d)).

(** [SelectSendAllPromotion] satisfies the Instrumentation interface. *)
Definition SelectSendAllPromotion (i : PrometheusInstrumentation) : M unit :=
  Counter_Increment (selectSendAllPromotionCount i).

(** [SelectRetrieved] satisfies the Instrumentation interface. *)
Definition SelectRetrieved (i : PrometheusInstrumentation) (n : int) : M unit :=
  Counter_IncrementBy (selectRetrievedCount i) (float64_of_int n).

(** [SelectReturned] satisfies the Instrumentation interface. *)
Definition SelectReturned (i : PrometheusInstrumentation) (n : int) : M unit :=
  Counter_IncrementBy (selectReturnedCount i) (float64_of_int n).

(** [SelectRepairNeeded] satisfies the Instrumentation interface. *)
Definition SelectRepairNeeded (i : PrometheusInstrumentation)
    (n : int) : M unit :=
  Counter_IncrementBy (selectRepairNeededCount i) (float64_of_int n).

(** [DeleteCall] satisfies the Instrumentation interface. *)
Definition DeleteCall (i : PrometheusInstrumentation) : M unit :=
  Counter_Increment (deleteCallCount i).

(** [DeleteRecordCount] satisfies the Instrumentation interface. *)
Definition DeleteRecordCount (i : PrometheusInstrumentation)
    (n : int) : M unit :=
  Counter_IncrementBy (deleteRecordCount i) (float64_of_int n).

(** [DeleteCallDuration] satisfies the Instrumentation interface. *)
Definition DeleteCallDuration (i : PrometheusInstrumentation)
    (d : Duration) : M unit :=
  Histogram_Add (deleteCallDuration i) (float64_of_int (Nanoseconds d)).

(** [DeleteRecordDuration] satisfies the Instrumentation interface. *)
Definition DeleteRecordDuration (i : PrometheusInstrumentation)
    (d : Duration) : M unit :=
  Histogram_Add (deleteRecordDuration i) (float64_of_int (Nanoseconds d)).

(** [DeleteQuorumFailure] satisfies the Instrumentation interface. *)
Definition DeleteQuorumFailure (i : PrometheusInstrumentation) : M unit :=
  Counter_Increment (deleteQuorumFailureCount i).

(** [RepairCall] satisfies the Instrumentation interface. *)
Definition RepairCall (i : PrometheusInstrumentation) : M unit :=
  Counter_Increment (repairCallCount i).

(** [RepairRequest] satisfies the Instrumentation interface. *)
Definition RepairRequest (i : PrometheusInstrumentation) (n : int) : M unit :=
  Counter_IncrementBy (repairRequestCount i) (float64_of_int n).

(** [RepairDiscarded] satisfies the Instrumentation interface. *)
Definition RepairDiscarded (i : PrometheusInstrumentation) (n : int) : M unit :=
  Counter_IncrementBy (repairDiscardedCount i) (float64_of_int n).

(** [RepairWriteSuccess] satisfies the Instrumentation interface. *)
Definition RepairWriteSuccess (i : PrometheusInstrumentation)
    (n : int) : M unit :=
  Counter_IncrementBy (repairWriteSuccessCount i) (float64_of_int n).

(** [RepairWriteFailure] satisfies the Instrumentation interface. *)
Definition RepairWriteFailure (i : PrometheusInstrumentation)
    (n : int) : M unit :=
  Counter_IncrementBy (repairWriteFailureCount i) (float64_of_int n).

(** [WalkKeys] satisfies the Instrumentation interface. *)
Definition WalkKeys (i : PrometheusInstrumentation) (n : int) : M unit :=
  Counter_IncrementBy (walkKeysCount i) (float64_of_int n).

(** ** The event catalogue

    One event per field of the facade, named by the suffix of the
    metric it is registered under, in the order of the fields. *)

(** The kinds of argument of the methods. *)
Inductive arg_kind := NoArg | CountArg | DurationArg.

(** The argument of a method call. *)
Inductive argument :=
| NoArgument
| Count (n : int)
| Elapsed (d : Duration).

(** The events. *)
Inductive event :=
| insert_call_count
| insert_record_count
| insert_call_duration_nanoseconds
| insert_record_duration_nanoseconds
| insert_quorum_failure_count
| select_call_count
| select_keys_count
| select_send_to_count
| select_first_response_duration_nanoseconds
| select_partial_error_count
| select_blocking_duration_nanoseconds
| select_overhead_duration_nanoseconds
| select_duration_nanoseconds
| select_send_all_promotion_count
| select_retrieved_count
| select_returned_count
| select_repair_needed_count
| delete_call_count
| delete_record_count
| delete_call_duration_nanoseconds
| delete_record_duration_nanoseconds
| delete_quorum_failure_count
| repair_call_count
| repair_request_count
| repair_discarded_count
| repair_write_success_count
| repair_write_failure_count
| walk_keys_count.

(** All events, in the order of the fields. *)
Definition catalogue : list event :=
  [insert_call_count;
   insert_record_count;
   insert_call_duration_nanoseconds;
   insert_record_duration_nanoseconds;
   insert_quorum_failure_count;
   select_call_count;
   select_keys_count;
   select_send_to_count;
   select_first_response_duration_nanoseconds;
   select_partial_error_count;
   select_blocking_duration_nanoseconds;
   select_overhead_duration_nanoseconds;
   select_duration_nanoseconds;
   select_send_all_promotion_count;
   select_retrieved_count;
   select_returned_count;
   select_repair_needed_count;
   delete_call_count;
   delete_record_count;
   delete_call_duration_nanoseconds;
   delete_record_duration_nanoseconds;
   delete_quorum_failure_count;
   repair_call_count;
   repair_request_count;
   repair_discarded_count;
   repair_write_success_count;
   repair_write_failure_count;
   walk_keys_count].

(** The name under which [New] registers the metric of an event,
    without the prefix. *)
Definition suffix (e : event) : string :=
  match e with
  | insert_call_count => "insert_call_count"
  | insert_record_count => "insert_record_count"
  | insert_call_duration_nanoseconds => "insert_call_duration_nanoseconds"
  | insert_record_duration_nanoseconds => "insert_record_duration_nanoseconds"
  | insert_quorum_failure_count => "insert_quorum_failure_count"
  | select_call_count => "select_call_count"
  | select_keys_count => "select_keys_count"
  | select_send_to_count => "select_send_to_count"
  | select_first_response_duration_nanoseconds => "select_first_response_duration_nanoseconds"
  | select_partial_error_count => "select_partial_error_count"
  | select_blocking_duration_nanoseconds => "select_blocking_duration_nanoseconds"
  | select_overhead_duration_nanoseconds => "select_overhead_duration_nanoseconds"
  | select_duration_nanoseconds => "select_duration_nanoseconds"
  | select_send_all_promotion_count => "select_send_all_promotion_count"
  | select_retrieved_count => "select_retrieved_count"
  | select_returned_count => "select_returned_count"
  | select_repair_needed_count => "select_repair_needed_count"
  | delete_call_count => "delete_call_count"
  | delete_record_count => "delete_record_count"
  | delete_call_duration_nanoseconds => "delete_call_duration_nanoseconds"
  | delete_record_duration_nanoseconds => "delete_record_duration_nanoseconds"
  | delete_quorum_failure_count => "delete_quorum_failure_count"
  | repair_call_count => "repair_call_count"
  | repair_request_count => "repair_request_count"
  | repair_discarded_count => "repair_discarded_count"
  | repair_write_success_count => "repair_write_success_count"
  | repair_write_failure_count => "repair_write_failure_count"
  | walk_keys_count => "walk_keys_count"
  end.

(** The type of the field of an event. *)
Definition kind (e : event) : metric_kind :=
  match e with
  | insert_call_count => KCounter
  | insert_record_count => KCounter
  | insert_call_duration_nanoseconds => KHistogram
  | insert_record_duration_nanoseconds => KHistogram
  | insert_quorum_failure_count => KCounter
  | select_call_count => KCounter
  | select_keys_count => KCounter
  | select_send_to_count => KCounter
  | select_first_response_duration_nanoseconds => KHistogram
  | select_partial_error_count => KCounter
  | select_blocking_duration_nanoseconds => KHistogram
  | select_overhead_duration_nanoseconds => KHistogram
  | select_duration_nanoseconds => KHistogram
  | select_send_all_promotion_count => KCounter
  | select_retrieved_count => KCounter
  | select_returned_count => KCounter
  | select_repair_needed_count => KCounter
  | delete_call_count => KCounter
  | delete_record_count => KCounter
  | delete_call_duration_nanoseconds => KHistogram
  | delete_record_duration_nanoseconds => KHistogram
  | delete_quorum_failure_count => KCounter
  | repair_call_count => KCounter
  | repair_request_count => KCounter
  | repair_discarded_count => KCounter
  | repair_write_success_count => KCounter
  | repair_write_failure_count => KCounter
  | walk_keys_count => KCounter
  end.

(** The argument of the method of an event. *)
Definition arg (e : event) : arg_kind :=
  match e with
  | insert_call_count => NoArg
  | insert_record_count => CountArg
  | insert_call_duration_nanoseconds => DurationArg
  | insert_record_duration_nanoseconds => DurationArg
  | insert_quorum_failure_count => NoArg
  | select_call_count => NoArg
  | select_keys_count => CountArg
  | select_send_to_count => CountArg
  | select_first_response_duration_nanoseconds => DurationArg
  | select_partial_error_count => NoArg
  | select_blocking_duration_nanoseconds => DurationArg
  | select_overhead_duration_nanoseconds => DurationArg
  | select_duration_nanoseconds => DurationArg
  | select_send_all_promotion_count => NoArg
  | select_retrieved_count => CountArg
  | select_returned_count => CountArg
  | select_repair_needed_count => CountArg
  | delete_call_count => NoArg
  | delete_record_count => CountArg
  | delete_call_duration_nanoseconds => DurationArg
  | delete_record_duration_nanoseconds => DurationArg
  | delete_quorum_failure_count => NoArg
  | repair_call_count => NoArg
  | repair_request_count => CountArg
  | repair_discarded_count => CountArg
  | repair_write_success_count => CountArg
  | repair_write_failure_count => CountArg
  | walk_keys_count => CountArg
  end.

(** The metric that the facade holds for an event. *)
Definition bound (i : PrometheusInstrumentation) (e : event) : loc :=
  match e with
  | insert_call_count => insertCallCount i
  | insert_record_count => insertRecordCount i
  | insert_call_duration_nanoseconds => insertCallDuration i
  | insert_record_duration_nanoseconds => insertRecordDuration i
  | insert_quorum_failure_count => insertQuorumFailureCount i
  | select_call_count => selectCallCount i
  | select_keys_count => selectKeysCount i
  | select_send_to_count => selectSendToCount i
  | select_first_response_duration_nanoseconds => selectFirstResponseDuration i
  | select_partial_error_count => selectPartialErrorCount i
  | select_blocking_duration_nanoseconds => selectBlockingDuration i
  | select_overhead_duration_nanoseconds => selectOverheadDuration i
  | select_duration_nanoseconds => selectDuration i
  | select_send_all_promotion_count => selectSendAllPromotionCount i
  | select_retrieved_count => selectRetrievedCount i
  | select_returned_count => selectReturnedCount i
  | select_repair_needed_count => selectRepairNeededCount i
  | delete_call_count => deleteCallCount i
  | delete_record_count => deleteRecordCount i
  | delete_call_duration_nanoseconds => deleteCallDuration i
  | delete_record_duration_nanoseconds => deleteRecordDuration i
  | delete_quorum_failure_count => deleteQuorumFailureCount i
  | repair_call_count => repairCallCount i
  | repair_request_count => repairRequestCount i
  | repair_discarded_count => repairDiscardedCount i
  | repair_write_success_count => repairWriteSuccessCount i
  | repair_write_failure_count => repairWriteFailureCount i
  | walk_keys_count => walkKeysCount i
  end.

(** A call of a method of the facade, with its argument. *)
Inductive call :=
| DoInsertCall
| DoInsertRecordCount (n : int)
| DoInsertCallDuration (d : Duration)
| DoInsertRecordDuration (d : Duration)
| DoInsertQuorumFailure
| DoSelectCall
| DoSelectKeys (n : int)
| DoSelectSendTo (n : int)
| DoSelectFirstResponseDuration (d : Duration)
| DoSelectPartialError
| DoSelectBlockingDuration (d : Duration)
| DoSelectOverheadDuration (d : Duration)
| DoSelectDuration (d : Duration)
| DoSelectSendAllPromotion
| DoSelectRetrieved (n : int)
| DoSelectReturned (n : int)
| DoSelectRepairNeeded (n : int)
| DoDeleteCall
| DoDeleteRecordCount (n : int)
| DoDeleteCallDuration (d : Duration)
| DoDeleteRecordDuration (d : Duration)
| DoDeleteQuorumFailure
| DoRepairCall
| DoRepairRequest (n : int)
| DoRepairDiscarded (n : int)
| DoRepairWriteSuccess (n : int)
| DoRepairWriteFailure (n : int)
| DoWalkKeys (n : int).

(** Making a call: the body of the called method. *)
Definition exec (i : PrometheusInstrumentation) (c : call) : M unit :=
  match c with
  | DoInsertCall => InsertCall i
  | DoInsertRecordCount n => InsertRecordCount i n
  | DoInsertCallDuration d => InsertCallDuration i d
  | DoInsertRecordDuration d => InsertRecordDuration i d
  | DoInsertQuorumFailure => InsertQuorumFailure i
  | DoSelectCall => SelectCall i
  | DoSelectKeys n => SelectKeys i n
  | DoSelectSendTo n => SelectSendTo i n
  | DoSelectFirstResponseDuration d => SelectFirstResponseDuration i d
  | DoSelectPartialError => SelectPartialError i
  | DoSelectBlockingDuration d => SelectBlockingDuration i d
  | DoSelectOverheadDuration d => SelectOverheadDuration i d
  | DoSelectDuration d => SelectDuration i d
  | DoSelectSendAllPromotion => SelectSendAllPromotion i
  | DoSelectRetrieved n => SelectRetrieved i n
  | DoSelectReturned n => SelectReturned i n
  | DoSelectRepairNeeded n => SelectRepairNeeded i n
  | DoDeleteCall => DeleteCall i
  | DoDeleteRecordCount n => DeleteRecordCount i n
  | DoDeleteCallDuration d => DeleteCallDuration i d
  | DoDeleteRecordDuration d => DeleteRecordDuration i d
  | DoDeleteQuorumFailure => DeleteQuorumFailure i
  | DoRepairCall => RepairCall i
  | DoRepairRequest n => RepairRequest i n
  | DoRepairDiscarded n => RepairDiscarded i n
  | DoRepairWriteSuccess n => RepairWriteSuccess i n
  | DoRepairWriteFailure n => RepairWriteFailure i n
  | DoWalkKeys n => WalkKeys i n
  end.

(** The name of the called method. *)
Definition method_name (c : call) : string :=
  match c with
  | DoInsertCall => "InsertCall"
  | DoInsertRecordCount _ => "InsertRecordCount"
  | DoInsertCallDuration _ => "InsertCallDuration"
  | DoInsertRecordDuration _ => "InsertRecordDuration"
  | DoInsertQuorumFailure => "InsertQuorumFailure"
  | DoSelectCall => "SelectCall"
  | DoSelectKeys _ => "SelectKeys"
  | DoSelectSendTo _ => "SelectSendTo"
  | DoSelectFirstResponseDuration _ => "SelectFirstResponseDuration"
  | DoSelectPartialError => "SelectPartialError"
  | DoSelectBlockingDuration _ => "SelectBlockingDuration"
  | DoSelectOverheadDuration _ => "SelectOverheadDuration"
  | DoSelectDuration _ => "SelectDuration"
  | DoSelectSendAllPromotion => "SelectSendAllPromotion"
  | DoSelectRetrieved _ => "SelectRetrieved"
  | DoSelectReturned _ => "SelectReturned"
  | DoSelectRepairNeeded _ => "SelectRepairNeeded"
  | DoDeleteCall => "DeleteCall"
  | DoDeleteRecordCount _ => "DeleteRecordCount"
  | DoDeleteCallDuration _ => "DeleteCallDuration"
  | DoDeleteRecordDuration _ => "DeleteRecordDuration"
  | DoDeleteQuorumFailure => "DeleteQuorumFailure"
  | DoRepairCall => "RepairCall"
  | DoRepairRequest _ => "RepairRequest"
  | DoRepairDiscarded _ => "RepairDiscarded"
  | DoRepairWriteSuccess _ => "RepairWriteSuccess"
  | DoRepairWriteFailure _ => "RepairWriteFailure"
  | DoWalkKeys _ => "WalkKeys"
  end.

(** The event of the called method: the field its body uses. *)
Definition event_of (c : call) : event :=
  match c with
  | DoInsertCall => insert_call_count
  | DoInsertRecordCount _ => insert_record_count
  | DoInsertCallDuration _ => insert_call_duration_nanoseconds
  | DoInsertRecordDuration _ => insert_record_duration_nanoseconds
  | DoInsertQuorumFailure => insert_quorum_failure_count
  | DoSelectCall => select_call_count
  | DoSelectKeys _ => select_keys_count
  | DoSelectSendTo _ => select_send_to_count
  | DoSelectFirstResponseDuration _ => select_first_response_duration_nanoseconds
  | DoSelectPartialError => select_partial_error_count
  | DoSelectBlockingDuration _ => select_blocking_duration_nanoseconds
  | DoSelectOverheadDuration _ => select_overhead_duration_nanoseconds
  | DoSelectDuration _ => select_duration_nanoseconds
  | DoSelectSendAllPromotion => select_send_all_promotion_count
  | DoSelectRetrieved _ => select_retrieved_count
  | DoSelectReturned _ => select_returned_count
  | DoSelectRepairNeeded _ => select_repair_needed_count
  | DoDeleteCall => delete_call_count
  | DoDeleteRecordCount _ => delete_record_count
  | DoDeleteCallDuration _ => delete_call_duration_nanoseconds
  | DoDeleteRecordDuration _ => delete_record_duration_nanoseconds
  | DoDeleteQuorumFailure => delete_quorum_failure_count
  | DoRepairCall => repair_call_count
  | DoRepairRequest _ => repair_request_count
  | DoRepairDiscarded _ => repair_discarded_count
  | DoRepairWriteSuccess _ => repair_write_success_count
  | DoRepairWriteFailure _ => repair_write_failure_count
  | DoWalkKeys _ => walk_keys_count
  end.

(** The argument of a call. *)
Definition argument_of (c : call) : argument :=
  match c with
  | DoInsertCall => NoArgument
  | DoInsertRecordCount n => Count n
  | DoInsertCallDuration d => Elapsed d
  | DoInsertRecordDuration d => Elapsed d
  | DoInsertQuorumFailure => NoArgument
  | DoSelectCall => NoArgument
  | DoSelectKeys n => Count n
  | DoSelectSendTo n => Count n
  | DoSelectFirstResponseDuration d => Elapsed d
  | DoSelectPartialError => NoArgument
  | DoSelectBlockingDuration d => Elapsed d
  | DoSelectOverheadDuration d => Elapsed d
  | DoSelectDuration d => Elapsed d
  | DoSelectSendAllPromotion => NoArgument
  | DoSelectRetrieved n => Count n
  | DoSelectReturned n => Count n
  | DoSelectRepairNeeded n => Count n
  | DoDeleteCall => NoArgument
  | DoDeleteRecordCount n => Count n
  | DoDeleteCallDuration d => Elapsed d
  | DoDeleteRecordDuration d => Elapsed d
  | DoDeleteQuorumFailure => NoArgument
  | DoRepairCall => NoArgument
  | DoRepairRequest n => Count n
  | DoRepairDiscarded n => Count n
  | DoRepairWriteSuccess n => Count n
  | DoRepairWriteFailure n => Count n
  | DoWalkKeys n => Count n
  end.
Definition help (e : event) : string :=
  match e with
  | insert_call_count =>
      "How many insert calls have been made."
  | insert_record_count =>
      "How many records have been inserted."
  | insert_call_duration_nanoseconds =>
      "Insert duration per-call."
  | insert_record_duration_nanoseconds =>
      "Insert duration per-record."
  | insert_quorum_failure_count =>
      "Insert quorum failure count."
  | select_call_count =>
      "How many select calls have been made."
  | select_keys_count =>
      "How many keys have been selected."
  | select_send_to_count =>
      "How many clusters have received select calls."
  | select_first_response_duration_nanoseconds =>
      "Select first response duration."
  | select_partial_error_count =>
      "How many partial errors have occurred in selects."
  | select_blocking_duration_nanoseconds =>
      "Select blocking duration."
  | select_overhead_duration_nanoseconds =>
      "Select overhead duration."
  | select_duration_nanoseconds =>
      "Overall select duration."
  | select_send_all_promotion_count =>
      "How many select requests were promoted to a send-all, in appropriate read strategies."
  | select_retrieved_count =>
      "How many key-score-member tuples have been retrieved from clusters by select calls."
  | select_returned_count =>
      "How many key-score-member tuples have been returned to clients by select calls."
  | select_repair_needed_count =>
      "How many repairs have been detected and requested by select calls."
  | delete_call_count =>
      "How many delete calls have been made."
  | delete_record_count =>
      "How many records have been deleted in delete calls."
  | delete_call_duration_nanoseconds =>
      "Delete duration, per-call."
  | delete_record_duration_nanoseconds =>
      "Delete duration, per-record."
  | delete_quorum_failure_count =>
      "Delete quorum failure count."
  | repair_call_count =>
      "How many repair calls have been made."
  | repair_request_count =>
      "How many key-member tuples have been repaired."
  | repair_discarded_count =>
      "How many repair calls have been discarded due to rate or buffer limits."
  | repair_write_success_count =>
      "Repair write success count."
  | repair_write_failure_count =>
      "Repair write failure count."
  | walk_keys_count =>
      "How many keys have been walked by the walker process."
  end.

(** The facade whose metrics are the 28 objects from [b] on. *)
Definition facade_at (b : nat) : PrometheusInstrumentation := {|
  insertCallCount := (0 + b)%nat;
  insertRecordCount := (1 + b)%nat;
  insertCallDuration := (2 + b)%nat;
  insertRecordDuration := (3 + b)%nat;
  insertQuorumFailureCount := (4 + b)%nat;
  selectCallCount := (5 + b)%nat;
  selectKeysCount := (6 + b)%nat;
  selectSendToCount := (7 + b)%nat;
  selectFirstResponseDuration := (8 + b)%nat;
  selectPartialErrorCount := (9 + b)%nat;
  selectBlockingDuration := (10 + b)%nat;
  selectOverheadDuration := (11 + b)%nat;
  selectDuration := (12 + b)%nat;
  selectSendAllPromotionCount := (13 + b)%nat;
  selectRetrievedCount := (14 + b)%nat;
  selectReturnedCount := (15 + b)%nat;
  selectRepairNeededCount := (16 + b)%nat;
  deleteCallCount := (17 + b)%nat;
  deleteRecordCount := (18 + b)%nat;
  deleteCallDuration := (19 + b)%nat;
  deleteRecordDuration := (20 + b)%nat;
  deleteQuorumFailureCount := (21 + b)%nat;
  repairCallCount := (22 + b)%nat;
  repairRequestCount := (23 + b)%nat;
  repairDiscardedCount := (24 + b)%nat;
  repairWriteSuccessCount := (25 + b)%nat;
  repairWriteFailureCount := (26 + b)%nat;
  walkKeysCount := (27 + b)%nat
|}.

(** One call of each method, in the order of the methods, with the
    argument 0 where the method takes one. *)
Definition one_call_each : list call :=
  [DoInsertCall; DoInsertRecordCount 0; DoInsertCallDuration 0;
   DoInsertRecordDuration 0; DoInsertQuorumFailure; DoSelectCall;
   DoSelectKeys 0; DoSelectSendTo 0; DoSelectFirstResponseDuration 0;
   DoSelectPartialError; DoSelectBlockingDuration 0;
   DoSelectOverheadDuration 0; DoSelectDuration 0;
   DoSelectSendAllPromotion; DoSelectRetrieved 0; DoSelectReturned 0;
   DoSelectRepairNeeded 0; DoDeleteCall; DoDeleteRecordCount 0;
   DoDeleteCallDuration 0; DoDeleteRecordDuration 0;
   DoDeleteQuorumFailure; DoRepairCall; DoRepairRequest 0;
   DoRepairDiscarded 0; DoRepairWriteSuccess 0; DoRepairWriteFailure 0;
   DoWalkKeys 0].

(** ** Construction and runs *)

(** The metric that [New] creates for an event. *)
Definition initial (k : metric_kind) : metric :=
  match k with
  | KCounter => CounterObj 0
  | KHistogram => HistogramObj []
  end.

(** Position of an event in the catalogue. *)
Definition index (e : event) : nat := bound (facade_at 0) e.

(** The registry entry of an event for a facade whose first metric is
    at [b]. *)
Definition entry (prefix : string) (b : nat) (e : event) : registration :=
  Registration (prefix +:+ suffix e) (help e) (index e + b)%nat.

(** The state that a successful [New prefix] leaves behind. *)
Definition world_after (prefix : string) (w : world) : world :=
  let b := length (heap w) in
  World (heap w ++ (initial ∘ kind <$> catalogue))
        (registry w ++ (entry prefix b <$> catalogue))
        (trace w
           ++ ((fun e => EvNew (index e + b)%nat (kind e)) <$> catalogue)
           ++ ((fun e => EvRegister (prefix +:+ suffix e) (index e + b)%nat)
                 <$> catalogue)).

(** A sequence of calls made one after the other on the facade. *)
Fixpoint run (i : PrometheusInstrumentation) (cs : list call) : M unit :=
  match cs with
  | [] => mret tt
  | c :: cs' => exec i c;; run i cs'
  end.

(** The update that the catalogue asks of a call with argument [a]:
    add 1, add the count, or observe the nanoseconds. *)
Definition update_for (a : argument) : update :=
  match a with
  | NoArgument => Increment
  | Count n => IncrementBy (float64_of_int n)
  | Elapsed d => Add (float64_of_int (Nanoseconds d))
  end.

(** The kind of an argument. *)
Definition arg_kind_of (a : argument) : arg_kind :=
  match a with
  | NoArgument => NoArg
  | Count _ => CountArg
  | Elapsed _ => DurationArg
  end.

(** Every field of the facade refers to a live metric of the type the
    field declares.  [New] returns such a facade and every call keeps
    it so ([New_bound_ok], [exec_bound_ok]). *)
Definition bound_ok (i : PrometheusInstrumentation) (w : world) : Prop :=
  forall e, exists m, heap w !! bound i e = Some m /\ kind_of m = kind e.

(** No two fields of the facade refer to the same metric, as in every
    facade that [New] returns ([New_bound_ok]). *)
Definition separate (i : PrometheusInstrumentation) : Prop :=
  forall e1 e2, bound i e1 = bound i e2 -> e1 = e2.

(** ** Strings *)

(** [s] without its first [n] characters. *)
Fixpoint sdrop (n : nat) (s : string) : string :=
  match n, s with
  | O, _ => s
  | S n', String _ s' => sdrop n' s'
  | S _, EmptyString => EmptyString
  end.

(** [a] is a suffix of [b] and shorter than [b]. *)
Definition proper_suffix (a b : string) : bool :=
  (String.length a <? String.length b)%nat
  && String.eqb (sdrop (String.length b - String.length a) b) a.

(** Events can be told apart. *)
#[export] Instance event_eq_dec : EqDecision event.
Proof. solve_decision. Defined.

(** The registrations of [New], as a loop over the catalogue. *)
Definition register_events {A} (prefix : string)
    (i : PrometheusInstrumentation) (es : list event) (k : M A) : M A :=
  foldr (fun e k => Register (prefix +:+ suffix e) (help e) (bound i e);; k)
        k es.

(** ** A concrete facade: [New] with the prefix test_ in a fresh process *)

(** The facade and the state that [New] with the prefix test_ returns
    in a fresh process ([New_test]). *)
Definition facade0 : PrometheusInstrumentation := facade_at 0.

Definition world0 : world := world_after "test_" boot.

(** ** The catalogue of the specification *)

(** The facade event catalogue of the specification, row by row:
    suffix of the metric name, type of the metric, kind of argument. *)
Definition spec_catalogue : list (string * metric_kind * arg_kind) :=
  [("insert_call_count", KCounter, NoArg);
   ("insert_record_count", KCounter, CountArg);
   ("insert_call_duration_nanoseconds", KHistogram, DurationArg);
   ("insert_record_duration_nanoseconds", KHistogram, DurationArg);
   ("insert_quorum_failure_count", KCounter, NoArg);
   ("select_call_count", KCounter, NoArg);
   ("select_keys_count", KCounter, CountArg);
   ("select_send_to_count", KCounter, CountArg);
   ("select_first_response_duration_nanoseconds", KHistogram, DurationArg);
   ("select_partial_error_count", KCounter, NoArg);
   ("select_blocking_duration_nanoseconds", KHistogram, DurationArg);
   ("select_overhead_duration_nanoseconds", KHistogram, DurationArg);
   ("select_duration_nanoseconds", KHistogram, DurationArg);
   ("select_send_all_promotion_count", KCounter, NoArg);
   ("select_retrieved_count", KCounter, CountArg);
   ("select_returned_count", KCounter, CountArg);
   ("select_repair_needed_count", KCounter, CountArg);
   ("delete_call_count", KCounter, NoArg);
   ("delete_record_count", KCounter, CountArg);
   ("delete_call_duration_nanoseconds", KHistogram, DurationArg);
   ("delete_record_duration_nanoseconds", KHistogram, DurationArg);
   ("delete_quorum_failure_count", KCounter, NoArg);
   ("repair_call_count", KCounter, NoArg);
   ("repair_request_count", KCounter, CountArg);
   ("repair_discarded_count", KCounter, CountArg);
   ("repair_write_success_count", KCounter, CountArg);
   ("repair_write_failure_count", KCounter, CountArg);
   ("walk_keys_count", KCounter, CountArg)].

(** The registrations that [New prefix] adds for the facade [i]. *)
Definition registrations (prefix : string) (i : PrometheusInstrumentation)
    : list registration :=
  (fun e => Registration (prefix +:+ suffix e) (help e) (bound i e))
    <$> catalogue.

(** ** The scenario of the specification *)

(** Three calls of [InsertCall()] and two of [InsertRecordCount(5)]. *)
Definition scenario : list call :=
  [DoInsertCall; DoInsertCall; DoInsertCall;
   DoInsertRecordCount 5; DoInsertRecordCount 5].

(** The outcome of the scenario for the calls [cs]. *)
Definition scenario_ok (cs : list call) : bool :=
  match run facade0 cs world0 with
  | Done _ w =>
      bool_decide ("test_insert_call_count 3" ∈ Render w)
      && bool_decide ("test_insert_record_count 10" ∈ Render w)
      && bool_decide (counter_value w (insertCallCount facade0) = Some 3)
      && bool_decide (counter_value w (insertRecordCount facade0) = Some 10)
  | Panic _ => false
  end.

(** ** Counters under sequences of calls *)

(** A call whose argument, if it has one, is not negative. *)
Definition nonneg_call (c : call) : Prop :=
  match argument_of c with
  | NoArgument => True
  | Count n => 0 <= n
  | Elapsed d => 0 <= d
  end.

(** The counters of the facade hold non-negative float64 values. *)
Definition counters_sound (i : PrometheusInstrumentation) (w : world) : Prop :=
  forall e x, heap w !! bound i e = Some (CounterObj x) ->
              0 <= x /\ Float64.representable x.

(** The sum of a list of counts. *)
Definition total (ks : list Z) : Z := foldr Z.add 0 ks.

(** ** Runs seen method by method *)

(** The calls of a run that are calls of the method of [e]. *)
Definition calls_for (e : event) (cs : list call) : list call :=
  filter (fun c => event_of c = e) cs.

(** A metric object after the updates [us], made in this order; no
    result if one of them is not supported by the object. *)
Fixpoint apply_updates (us : list update) (m : metric) : option metric :=
  match us with
  | [] => Some m
  | u :: us' =>
      match apply_update u m with
      | Some m' => apply_updates us' m'
      | None => None
      end
  end.

(** The updates that the calls of the method of [e] ask for. *)
Definition updates_for (e : event) (cs : list call) : list update :=
  (fun c => update_for (argument_of c)) <$> calls_for e cs.

(** What a call adds to a counter: 1 without argument, else the count. *)
Definition count_of (c : call) : Z :=
  match argument_of c with
  | NoArgument => 1
  | Count n => n
  | Elapsed _ => 0
  end.

(** What a call with a duration hands to its histogram. *)
Definition observation_of (c : call) : option float64 :=
  match argument_of c with
  | Elapsed d => Some (float64_of_int (Nanoseconds d))
  | _ => None
  end.

(** The update that a call logs. *)
Definition logged (i : PrometheusInstrumentation) (c : call) : effect :=
  EvUpdate (bound i (event_of c)) (update_for (argument_of c)).

(** ** The states of a process *)

(** One step of a process: a facade is constructed, or a method of some
    facade value is called, and the step returns. *)
Definition step (w w' : world) : Prop :=
  (exists prefix i, New prefix w = Done i w') \/
  (exists i c, exec i c w = Done tt w').

(** The states that follow [w0] after any number of steps. *)
Inductive reachable (w0 : world) : world -> Prop :=
| reach_here : reachable w0 w0
| reach_step w w' : reachable w0 w -> step w w' -> reachable w0 w'.

(** The registry holds every name once, and every entry refers to an
    object of the heap. *)
Definition registry_ok (w : world) : Prop :=
  NoDup (reg_name <$> registry w) /\
  forall x, x ∈ registry w -> (reg_metric x < length (heap w))%nat.

(** The range of an [int64]. *)
Definition is_int64 (n : Z) : Prop := - 2 ^ 63 <= n < 2 ^ 63.

(** The ending that the name of a metric of kind [k] has. *)
Definition name_ending (k : metric_kind) : string :=
  match k with
  | KCounter => "_count"
  | KHistogram => "_duration_nanoseconds"
  end.

(** * float64 arithmetic *)

Lemma ulp_exp_nonneg a : 0 <= ulp_exp a.
Proof. unfold ulp_exp. lia. Qed.

Lemma ulp_pos a : 0 < 2 ^ ulp_exp a.
Proof. apply Z.pow_pos_nonneg; [lia | apply ulp_exp_nonneg]. Qed.

Lemma ulp_exp_small a : a < 2 ^ 53 -> ulp_exp a = 0.
Proof.
  intros Ha. unfold ulp_exp.
  destruct (Z.le_gt_cases a 0) as [Hle | Hpos].
  - rewrite Z.log2_nonpos by assumption. lia.
  - assert (Z.log2 a < 53) by (apply Z.log2_lt_pow2; lia). lia.
Qed.

Lemma round_mag_small a : a < 2 ^ 53 -> round_mag a = a.
Proof.
  intros Ha. unfold round_mag. rewrite (ulp_exp_small a Ha).
  change (2 ^ 0) with 1. rewrite Z.mod_1_r, Z.div_1_r.
  simpl. lia.
Qed.

Lemma round_mag_pow53 : round_mag (2 ^ 53) = 2 ^ 53.
Proof. reflexivity. Qed.

(** Integers of magnitude at most [2^53] convert exactly. *)
Lemma round_exact x : - 2 ^ 53 <= x <= 2 ^ 53 -> round x = x.
Proof.
  intros Hx. unfold round.
  destruct (Z.ltb_spec x 0) as [Hneg | Hpos].
  - destruct (Z.eq_dec (- x) (2 ^ 53)) as [E | NE].
    + rewrite E, round_mag_pow53. lia.
    + rewrite round_mag_small by lia. lia.
  - destruct (Z.eq_dec x (2 ^ 53)) as [E | NE].
    + rewrite E. apply round_mag_pow53.
    + apply round_mag_small. lia.
Qed.

Lemma of_int_exact n : - 2 ^ 53 <= n <= 2 ^ 53 -> of_int n = n.
Proof. apply round_exact. Qed.

Lemma add_exact x y : - 2 ^ 53 <= x + y <= 2 ^ 53 -> add x y = x + y.
Proof. apply round_exact. Qed.

(** [round_mag a] is one of the two multiples of the unit around [a]. *)
Lemma round_mag_cases a :
  let u := 2 ^ ulp_exp a in
  round_mag a = (a / u) * u \/
  (round_mag a = (a / u + 1) * u /\ 0 < a mod u).
Proof.
  intros u. unfold round_mag. fold u.
  pose proof (ulp_pos a) as Hu. fold u in Hu.
  destruct (Z.ltb_spec (2 * (a mod u)) u); [by left |].
  destruct (Z.ltb_spec u (2 * (a mod u))); [right; split; [done | lia] |].
  destruct (Z.even (a / u)); [by left | right; split; [done | lia]].
Qed.

Lemma round_mag_lower a : 0 <= a -> (a / 2 ^ ulp_exp a) * 2 ^ ulp_exp a <= round_mag a.
Proof.
  intros Ha. pose proof (ulp_pos a) as Hu.
  destruct (round_mag_cases a) as [-> | [-> _]]; nia.
Qed.

Lemma round_mag_nonneg a : 0 <= a -> 0 <= round_mag a.
Proof.
  intros Ha. pose proof (ulp_pos a) as Hu.
  pose proof (round_mag_lower a Ha).
  assert (0 <= a / 2 ^ ulp_exp a) by (apply Z.div_pos; lia).
  nia.
Qed.

Lemma round_nonneg x : 0 <= x -> 0 <= round x.
Proof.
  intros Hx. unfold round.
  destruct (Z.ltb_spec x 0); [lia | by apply round_mag_nonneg].
Qed.

Lemma of_int_nonneg n : 0 <= n -> 0 <= of_int n.
Proof. apply round_nonneg. Qed.

Lemma round_nonneg_eq x : 0 <= x -> round x = round_mag x.
Proof. intros Hx. unfold round. destruct (Z.ltb_spec x 0); [lia | done]. Qed.

(** From [2^53] on, the unit is fixed by the binade of the magnitude. *)
Lemma ulp_exp_large a :
  2 ^ 53 <= a ->
  1 <= ulp_exp a /\ 2 ^ 52 * 2 ^ ulp_exp a <= a < 2 ^ 53 * 2 ^ ulp_exp a.
Proof.
  intros Ha. unfold ulp_exp.
  assert (53 <= Z.log2 a) as Hlog.
  { change 53 with (Z.log2 (2 ^ 53)). by apply Z.log2_le_mono. }
  rewrite Z.max_r by lia.
  destruct (Z.log2_spec a) as [Hlo Hhi]; [lia |].
  rewrite <- !Z.pow_add_r by lia.
  replace (52 + (Z.log2 a - 52)) with (Z.log2 a) by lia.
  replace (53 + (Z.log2 a - 52)) with (Z.succ (Z.log2 a)) by lia.
  lia.
Qed.

Lemma ulp_exp_binade a e :
  1 <= e -> 2 ^ 52 * 2 ^ e <= a < 2 ^ 53 * 2 ^ e -> ulp_exp a = e.
Proof.
  intros He. rewrite <- !Z.pow_add_r by lia. intros Ha.
  unfold ulp_exp.
  rewrite (Z.log2_unique a (52 + e)); [lia | lia |].
  replace (Z.succ (52 + e)) with (53 + e) by lia. exact Ha.
Qed.

Lemma representable_small a : a < 2 ^ 53 -> representable a.
Proof.
  intros Ha. unfold representable. rewrite ulp_exp_small by done.
  apply Z.mod_1_r.
Qed.

Lemma representable_multiple k e :
  1 <= e -> 2 ^ 52 <= k <= 2 ^ 53 -> representable (k * 2 ^ e).
Proof.
  intros He Hk. unfold representable.
  assert (0 < 2 ^ e) as Hu by (apply Z.pow_pos_nonneg; lia).
  destruct (Z.eq_dec k (2 ^ 53)) as [-> | Hne].
  - rewrite (ulp_exp_binade _ (e + 1)); [| lia |].
    + rewrite Z.pow_add_r by lia.
      replace (2 ^ 53 * 2 ^ e) with (2 ^ 52 * (2 ^ e * 2 ^ 1))
        by (change (2 ^ 1) with 2; lia).
      apply Z.mod_mul. change (2 ^ 1) with 2. lia.
    + rewrite Z.pow_add_r by lia. change (2 ^ 1) with 2. lia.
  - rewrite (ulp_exp_binade _ e); [| lia | nia].
    apply Z.mod_mul. lia.
Qed.

(** Rounding lands on a value of the format. *)
Lemma round_mag_representable a : 0 <= a -> representable (round_mag a).
Proof.
  intros Ha.
  destruct (Z.lt_ge_cases a (2 ^ 53)) as [Hsmall | Hlarge].
  - rewrite round_mag_small by done. by apply representable_small.
  - destruct (ulp_exp_large a Hlarge) as (He & Hlo & Hhi).
    pose proof (ulp_pos a) as Hu.
    assert (2 ^ 52 <= a / 2 ^ ulp_exp a) as Hq1
      by (apply Z.div_le_lower_bound; lia).
    assert (a / 2 ^ ulp_exp a < 2 ^ 53) as Hq2
      by (apply Z.div_lt_upper_bound; lia).
    destruct (round_mag_cases a) as [-> | [-> _]];
      apply representable_multiple; lia.
Qed.

(** A value of the format below [y] stays below the rounding of [y]. *)
Lemma round_mag_ge_representable v y :
  0 <= v <= y -> representable v -> v <= round_mag y.
Proof.
  intros Hvy Hv.
  destruct (Z.lt_ge_cases y (2 ^ 53)) as [Hsmall | Hlarge].
  - rewrite round_mag_small by done. lia.
  - destruct (ulp_exp_large y Hlarge) as (He & Hlo & Hhi).
    pose proof (ulp_pos y) as Hu.
    pose proof (round_mag_lower y ltac:(lia)) as Hlow.
    assert (2 ^ 52 <= y / 2 ^ ulp_exp y) as Hq1
      by (apply Z.div_le_lower_bound; lia).
    destruct (Z.lt_ge_cases v (2 ^ 52 * 2 ^ ulp_exp y)) as [Hbelow | Hsame].
    + nia.
    + unfold representable in Hv.
      rewrite (ulp_exp_binade v (ulp_exp y)) in Hv by lia.
      apply Z.mod_divide in Hv; [| lia]. destruct Hv as [k ->].
      assert (k <= y / 2 ^ ulp_exp y) by (apply Z.div_le_lower_bound; lia).
      nia.
Qed.

(** Adding a non-negative float to a non-negative value of the format
    never yields less, and yields a value of the format again. *)
Lemma add_nonneg_ge v d :
  0 <= v -> representable v -> 0 <= d -> v <= add v d.
Proof.
  intros Hv Hr Hd. unfold add. rewrite round_nonneg_eq by lia.
  apply round_mag_ge_representable; [lia | done].
Qed.

Lemma add_nonneg_representable v d :
  0 <= v -> 0 <= d -> 0 <= add v d /\ representable (add v d).
Proof.
  intros Hv Hd. unfold add. rewrite round_nonneg_eq by lia.
  split; [apply round_mag_nonneg | apply round_mag_representable]; lia.
Qed.

(** * Strings *)

Lemma append_cons c s t : String c s +:+ t = String c (s +:+ t).
Proof. reflexivity. Qed.

Lemma eqb_append_prefix p a b :
  String.eqb (p +:+ a) (p +:+ b) = String.eqb a b.
Proof.
  induction p as [| c p IH]; simpl; [done |].
  by rewrite Ascii.eqb_refl.
Qed.

Lemma sdrop_append t s : sdrop (String.length t) (t +:+ s) = s.
Proof. induction t as [| c t IH]; simpl; [by destruct s | done]. Qed.

Lemma length_append t s :
  String.length (t +:+ s) = (String.length t + String.length s)%nat.
Proof.
  induction t as [| c t IH]; [done |].
  rewrite append_cons. simpl. by rewrite IH.
Qed.

Lemma append_empty_r s : s +:+ "" = s.
Proof. induction s as [| c s IH]; [done | by rewrite append_cons, IH]. Qed.

Lemma proper_suffix_append t s : t <> "" -> proper_suffix s (t +:+ s) = true.
Proof.
  intros Ht. unfold proper_suffix. rewrite length_append.
  replace (String.length t + String.length s - String.length s)%nat
    with (String.length t) by lia.
  rewrite sdrop_append, String.eqb_refl, andb_true_r.
  apply Nat.ltb_lt. destruct t; [done | simpl; lia].
Qed.

(** Two concatenations are equal only if one prefix extends the other. *)
Lemma append_eq_cases p1 s1 p2 s2 :
  p1 +:+ s1 = p2 +:+ s2 ->
  (exists t, p1 = p2 +:+ t /\ s2 = t +:+ s1) \/
  (exists t, p2 = p1 +:+ t /\ s1 = t +:+ s2).
Proof.
  revert p2. induction p1 as [| a p1 IH]; intros p2 H.
  - right. exists p2. by split.
  - destruct p2 as [| b p2].
    + left. exists (String a p1). by split.
    + rewrite !append_cons in H. injection H as -> H.
      destruct (IH _ H) as [(t & -> & ->) | (t & -> & ->)];
        [left | right]; by exists t.
Qed.

(** * The catalogue *)

Lemma catalogue_complete e : e ∈ catalogue.
Proof. apply list_elem_of_In. destruct e; simpl; tauto. Qed.

Lemma catalogue_length : length catalogue = 28%nat.
Proof. reflexivity. Qed.

Lemma catalogue_index e : catalogue !! index e = Some e.
Proof. by destruct e. Qed.

Lemma index_inj e1 e2 : index e1 = index e2 -> e1 = e2.
Proof.
  intros H. pose proof (catalogue_index e1) as H1.
  rewrite H, catalogue_index in H1. congruence.
Qed.

Lemma bound_facade_at b e : bound (facade_at b) e = (index e + b)%nat.
Proof. by destruct e. Qed.

Lemma facade_at_separate b : separate (facade_at b).
Proof.
  intros e1 e2. rewrite !bound_facade_at. intros H.
  apply index_inj. lia.
Qed.

(** The catalogue of the specification and the signatures of the
    methods agree: latency events are histograms and take a duration,
    all others are counters. *)
Lemma kind_arg e : kind e = KHistogram <-> arg e = DurationArg.
Proof. destruct e; simpl; split; congruence. Qed.

Lemma arg_event_of c : arg (event_of c) = arg_kind_of (argument_of c).
Proof. by destruct c. Qed.

(** Every event has a method. *)
Lemma event_has_method e : exists c, event_of c = e.
Proof.
  assert ((event_of <$> one_call_each) !! index e = Some e) as H
    by apply catalogue_index.
  rewrite list_lookup_fmap in H.
  destruct (one_call_each !! index e) as [c |]; [| done].
  exists c. by injection H.
Qed.

Lemma suffix_NoDup : NoDup (suffix <$> catalogue).
Proof. apply (bool_decide_unpack _). vm_compute. exact I. Qed.

Lemma suffix_inj e1 e2 : suffix e1 = suffix e2 -> e1 = e2.
Proof.
  intros H. apply index_inj.
  eapply (NoDup_lookup _ _ _ _ suffix_NoDup);
    rewrite list_lookup_fmap, catalogue_index; simpl; [done | by rewrite H].
Qed.

Lemma no_proper_suffix :
  forallb (fun e1 =>
    forallb (fun e2 => negb (proper_suffix (suffix e1) (suffix e2)))
            catalogue) catalogue = true.
Proof. vm_compute. reflexivity. Qed.

Lemma suffix_not_proper e1 e2 :
  proper_suffix (suffix e1) (suffix e2) = false.
Proof.
  pose proof no_proper_suffix as H.
  rewrite forallb_forall in H.
  specialize (H e1 (proj1 (list_elem_of_In _ _) (catalogue_complete e1))).
  rewrite forallb_forall in H.
  specialize (H e2 (proj1 (list_elem_of_In _ _) (catalogue_complete e2))).
  by apply negb_true_iff in H.
Qed.

(** Names built from the catalogue determine the prefix and the event. *)
Lemma name_inj p1 e1 p2 e2 :
  p1 +:+ suffix e1 = p2 +:+ suffix e2 -> p1 = p2 /\ e1 = e2.
Proof.
  intros H.
  destruct (append_eq_cases _ _ _ _ H) as [(t & -> & Hs) | (t & -> & Hs)].
  - destruct (decide (t = "")) as [-> | Hne].
    + rewrite append_empty_r. split; [done |]. by apply suffix_inj.
    + pose proof (suffix_not_proper e1 e2) as Hp.
      rewrite Hs, proper_suffix_append in Hp by done. done.
  - destruct (decide (t = "")) as [-> | Hne].
    + rewrite append_empty_r. split; [done |]. by apply suffix_inj.
    + pose proof (suffix_not_proper e2 e1) as Hp.
      rewrite Hs, proper_suffix_append in Hp by done. done.
Qed.

(** * Running [New] *)

Lemma is_registered_app n r1 r2 :
  is_registered n (r1 ++ r2) = is_registered n r1 || is_registered n r2.
Proof. apply existsb_app. Qed.

Lemma is_registered_snoc n r e :
  is_registered n (r ++ [e]) = is_registered n r || String.eqb n (reg_name e).
Proof. rewrite is_registered_app. simpl. by rewrite orb_false_r. Qed.

Lemma bind_alloc {B} m (f : loc -> M B) h l r t t' :
  (alloc m ≫= f) (World (h ++ l) r (t ++ t')) =
  f (length l + length h)%nat
    (World (h ++ (l ++ [m])) r
           (t ++ (t' ++ [EvNew (length l + length h)%nat (kind_of m)]))).
Proof.
  unfold mbind, M_bind, alloc. simpl.
  rewrite length_app, (Nat.add_comm (length h)). by rewrite <- !app_assoc.
Qed.

Lemma New_alloc prefix h r t :
  New prefix (World h r t) =
  register_events prefix (facade_at (length h)) catalogue
    (mret (facade_at (length h)))
    (World (h ++ (initial ∘ kind <$> catalogue)) r
           (t ++ ((fun e => EvNew (index e + length h)%nat (kind e))
                    <$> catalogue))).
Proof.
  unfold New, NewCounter, NewDefaultHistogram.
  rewrite <- (app_nil_r h) at 1. rewrite <- (app_nil_r t) at 1.
  do 28 (rewrite bind_alloc; cbv beta; cbn [length Nat.add app kind_of]).
  reflexivity.
Qed.

Lemma find_ext_in {A} (f g : A -> bool) l :
  (forall x, x ∈ l -> f x = g x) -> find f l = find g l.
Proof.
  induction l as [| x l IH]; intros H; simpl; [done |].
  rewrite <- (H x) by apply list_elem_of_here.
  rewrite IH; [done |]. intros y Hy. apply H. by apply list_elem_of_further.
Qed.

Lemma register_events_run {A} prefix i es (k : M A) w :
  NoDup (suffix <$> es) ->
  register_events prefix i es k w =
  match find (fun e => is_registered (prefix +:+ suffix e) (registry w)) es with
  | Some e => Panic (AlreadyRegistered (prefix +:+ suffix e))
  | None =>
      k (World (heap w)
               (registry w
                  ++ ((fun e => Registration (prefix +:+ suffix e) (help e)
                                             (bound i e)) <$> es))
               (trace w
                  ++ ((fun e => EvRegister (prefix +:+ suffix e) (bound i e))
                        <$> es)))
  end.
Proof.
  revert w. induction es as [| e es IH]; intros [h r t] Hnd.
  - simpl. by rewrite !app_nil_r.
  - rewrite fmap_cons in Hnd. apply NoDup_cons in Hnd as [Hnotin Hnd].
    change (register_events prefix i (e :: es) k)
      with (Register (prefix +:+ suffix e) (help e) (bound i e)
            ≫= fun _ => register_events prefix i es k).
    unfold mbind, M_bind, Register. cbn [registry heap trace find].
    destruct (is_registered (prefix +:+ suffix e) r) eqn:He; [done |].
    rewrite IH by done. cbn [registry heap trace].
    rewrite (find_ext_in _
               (fun e' => is_registered (prefix +:+ suffix e') r)).
    + destruct (find _ es); [done |].
      by rewrite !fmap_cons, <- !app_assoc.
    + intros e' He'. rewrite is_registered_snoc. cbn [reg_name].
      rewrite eqb_append_prefix.
      destruct (String.eqb_spec (suffix e') (suffix e)) as [Heq | Hne].
      * exfalso. apply Hnotin. rewrite <- Heq.
        by apply list_elem_of_fmap_2.
      * by rewrite orb_false_r.
Qed.

Lemma New_eq prefix w :
  New prefix w =
  match find (fun e => is_registered (prefix +:+ suffix e) (registry w))
             catalogue with
  | Some e => Panic (AlreadyRegistered (prefix +:+ suffix e))
  | None => Done (facade_at (length (heap w))) (world_after prefix w)
  end.
Proof.
  destruct w as [h r t].
  rewrite New_alloc, register_events_run by apply suffix_NoDup.
  cbn [registry heap trace].
  destruct (find _ catalogue); [done |].
  unfold world_after. cbn [registry heap trace].
  rewrite <- app_assoc. reflexivity.
Qed.

Lemma New_run prefix w :
  (forall e, is_registered (prefix +:+ suffix e) (registry w) = false) ->
  New prefix w = Done (facade_at (length (heap w))) (world_after prefix w).
Proof.
  intros H. rewrite New_eq.
  destruct (find _ catalogue) as [e |] eqn:Hfind; [| done].
  apply find_some in Hfind as [_ He]. by rewrite H in He.
Qed.

Lemma New_panics prefix w e :
  is_registered (prefix +:+ suffix e) (registry w) = true ->
  exists e', New prefix w = Panic (AlreadyRegistered (prefix +:+ suffix e'))
             /\ is_registered (prefix +:+ suffix e') (registry w) = true.
Proof.
  intros H. rewrite New_eq.
  destruct (find _ catalogue) as [e' |] eqn:Hfind.
  - apply find_some in Hfind as [_ He']. by exists e'.
  - assert (In e catalogue) as Hin
      by apply list_elem_of_In, catalogue_complete.
    pose proof (find_none _ _ Hfind e Hin) as Hn. simpl in Hn.
    by rewrite H in Hn.
Qed.

Lemma New_inv prefix w i w' :
  New prefix w = Done i w' ->
  i = facade_at (length (heap w)) /\ w' = world_after prefix w /\
  forall e, is_registered (prefix +:+ suffix e) (registry w) = false.
Proof.
  rewrite New_eq.
  destruct (find _ catalogue) as [e' |] eqn:Hfind; [done |].
  intros [= <- <-]. split; [done |]. split; [done |].
  intros e. apply (find_none _ _ Hfind e).
  apply list_elem_of_In, catalogue_complete.
Qed.

(** * The state after construction *)

Lemma lookup_app_add {A} (h l : list A) (k : nat) :
  (h ++ l) !! (k + length h)%nat = l !! k.
Proof.
  rewrite lookup_app_r by lia. f_equal. lia.
Qed.

Lemma world_after_lookup prefix w e :
  heap (world_after prefix w) !! bound (facade_at (length (heap w))) e
  = Some (initial (kind e)).
Proof.
  rewrite bound_facade_at. unfold world_after. cbn [heap].
  rewrite lookup_app_add, list_lookup_fmap, catalogue_index. done.
Qed.

Lemma world_after_bound_ok prefix w :
  bound_ok (facade_at (length (heap w))) (world_after prefix w).
Proof.
  intros e. exists (initial (kind e)). split.
  - apply world_after_lookup.
  - by destruct (kind e).
Qed.

(** Construction leaves the metrics that existed before untouched. *)
Lemma world_after_old prefix w l :
  (l < length (heap w))%nat -> heap (world_after prefix w) !! l = heap w !! l.
Proof. intros Hl. unfold world_after. cbn [heap]. by apply lookup_app_l. Qed.

(** * Running the methods *)

Lemma exec_update i c :
  exec i c = update_metric (bound i (event_of c)) (update_for (argument_of c)).
Proof. by destruct c. Qed.

Lemma apply_update_kind c m :
  kind_of m = kind (event_of c) ->
  exists m', apply_update (update_for (argument_of c)) m = Some m'
             /\ kind_of m' = kind_of m.
Proof. destruct c, m; simpl; intros; try discriminate; eauto. Qed.

Lemma update_metric_run l u h r t m m' :
  h !! l = Some m -> apply_update u m = Some m' ->
  update_metric l u (World h r t)
  = Done tt (World (<[l := m']> h) r (t ++ [EvUpdate l u])).
Proof. intros Hm Hu. unfold update_metric. cbn [heap]. by rewrite Hm, Hu. Qed.

Lemma update_metric_inv l u w w' :
  update_metric l u w = Done tt w' ->
  exists m m', heap w !! l = Some m /\ apply_update u m = Some m' /\
    w' = World (<[l := m']> (heap w)) (registry w) (trace w ++ [EvUpdate l u]).
Proof.
  unfold update_metric.
  destruct (heap w !! l) as [m |]; [| done].
  destruct (apply_update u m) as [m' |] eqn:Hu; [| done].
  intros [= <-]. by exists m, m'.
Qed.

(** On a well bound facade every method succeeds. *)
Lemma exec_run i c w :
  bound_ok i w ->
  exists m m',
    heap w !! bound i (event_of c) = Some m /\
    kind_of m = kind (event_of c) /\
    apply_update (update_for (argument_of c)) m = Some m' /\
    kind_of m' = kind_of m /\
    forall r t,
      exec i c (World (heap w) r t)
      = Done tt (World (<[bound i (event_of c) := m']> (heap w)) r
                       (t ++ [EvUpdate (bound i (event_of c))
                                       (update_for (argument_of c))])).
Proof.
  intros Hok. destruct (Hok (event_of c)) as (m & Hm & Hk).
  destruct (apply_update_kind c m Hk) as (m' & Hu & Hk').
  exists m, m'. repeat split; try done.
  intros r t. rewrite exec_update. by apply (update_metric_run _ _ _ _ _ m).
Qed.

(** What [New] returns is well bound, with 28 separate metrics. *)
Lemma New_bound_ok prefix w i w' :
  New prefix w = Done i w' -> bound_ok i w' /\ separate i.
Proof.
  intros H. apply New_inv in H as (-> & -> & _).
  split; [apply world_after_bound_ok | apply facade_at_separate].
Qed.

Lemma world_eta w : World (heap w) (registry w) (trace w) = w.
Proof. by destruct w. Qed.

Lemma exec_bound_ok i c w w' :
  bound_ok i w -> exec i c w = Done tt w' -> bound_ok i w'.
Proof.
  intros Hok Hex. destruct (exec_run i c w Hok) as (m & m' & Hm & Hk & _ & Hk' & Hrun).
  specialize (Hrun (registry w) (trace w)). rewrite world_eta, Hex in Hrun.
  injection Hrun as ->. intros e. cbn [heap].
  destruct (decide (bound i e = bound i (event_of c))) as [Heq | Hne].
  - exists m'. rewrite Heq. split.
    + apply list_lookup_insert_eq. by eapply lookup_lt_Some.
    + destruct (Hok e) as (m0 & Hm0 & Hk0). rewrite Heq, Hm in Hm0.
      injection Hm0 as <-. congruence.
  - destruct (Hok e) as (m0 & Hm0 & Hk0). exists m0.
    by rewrite list_lookup_insert_ne.
Qed.

(** A method leaves every other object of the heap as it was. *)
Lemma exec_frame i c w w' l :
  exec i c w = Done tt w' -> l <> bound i (event_of c) ->
  heap w' !! l = heap w !! l.
Proof.
  rewrite exec_update. intros Hex Hne.
  apply update_metric_inv in Hex as (m & m' & _ & _ & ->). cbn [heap].
  by rewrite list_lookup_insert_ne.
Qed.

Lemma exec_registry i c w w' :
  exec i c w = Done tt w' -> registry w' = registry w.
Proof.
  rewrite exec_update. intros Hex.
  by apply update_metric_inv in Hex as (m & m' & _ & _ & ->).
Qed.

Lemma run_cons i c cs w :
  run i (c :: cs) w =
  match exec i c w with
  | Done _ w' => run i cs w'
  | Panic f => Panic f
  end.
Proof. reflexivity. Qed.

Lemma run_registry i cs w w' :
  run i cs w = Done tt w' -> registry w' = registry w.
Proof.
  revert w. induction cs as [| c cs IH]; intros w; [by intros [= ->] |].
  rewrite run_cons. destruct (exec i c w) as [[] w1 | f] eqn:Hex; [| done].
  intros Hrun. rewrite (IH _ Hrun). by eapply exec_registry.
Qed.

(** * The concrete facade *)

Lemma New_test : New "test_" boot = Done facade0 world0.
Proof. vm_compute. reflexivity. Qed.

Lemma bound_ok0 : bound_ok facade0 world0.
Proof. intros e. destruct e; eexists; split; reflexivity. Defined.

Lemma separate0 : separate facade0.
Proof. intros e1 e2 H. destruct e1, e2; first [reflexivity | discriminate H]. Defined.

(** * The methods of the facade *)

(** What a method does to the metric of its event, by the kind of its
    argument, whatever the registry and the log are. *)
Lemma exec_spec (i : PrometheusInstrumentation) (c : call) (w : world) :
  bound_ok i w ->
  exists m m',
    heap w !! bound i (event_of c) = Some m /\
    match argument_of c with
    | NoArgument =>
        exists x, m = CounterObj x /\ m' = CounterObj (Float64.add x 1)
    | Count n =>
        exists x, m = CounterObj x
                  /\ m' = CounterObj (Float64.add x (float64_of_int n))
    | Elapsed d =>
        exists s, m = HistogramObj s
                  /\ m' = HistogramObj (s ++ [float64_of_int (Nanoseconds d)])
    end /\
    forall r t,
      exec i c (World (heap w) r t)
      = Done tt (World (<[bound i (event_of c) := m']> (heap w)) r
                       (t ++ [EvUpdate (bound i (event_of c))
                                       (update_for (argument_of c))])).
Proof.
  intros Hok.
  destruct (exec_run i c w Hok) as (m & m' & Hm & Hk & Hu & _ & Hrun).
  exists m, m'. split; [done |]. split; [| done].
  destruct c, m; simpl in *; try discriminate; injection Hu as <-; eauto.
Qed.

(** C1: every event of the catalogue has its method, and every method
    of the facade makes exactly one call into the metrics library, an
    update of the metric held in the field of its event: a method
    without argument increments that counter by 1, a method with a count
    [n] increments that counter by [float64(n)], and a method with a
    duration [d] records [float64(d.Nanoseconds())] in that histogram.
    The outcome does not depend on the registry (no lookup by name), and
    nothing else is logged (no other metric is touched). *)
Theorem method_updates_its_bound_metric
    (i : PrometheusInstrumentation) (w : world) :
  bound_ok i w ->
  (forall e, exists c, event_of c = e) /\
  forall c, exists m m',
    heap w !! bound i (event_of c) = Some m /\
    match argument_of c with
    | NoArgument =>
        exists x, m = CounterObj x /\ m' = CounterObj (Float64.add x 1)
    | Count n =>
        exists x, m = CounterObj x
                  /\ m' = CounterObj (Float64.add x (float64_of_int n))
    | Elapsed d =>
        exists s, m = HistogramObj s
                  /\ m' = HistogramObj (s ++ [float64_of_int (Nanoseconds d)])
    end /\
    exec i c w
    = Done tt (World (<[bound i (event_of c) := m']> (heap w)) (registry w)
                     (trace w ++ [EvUpdate (bound i (event_of c))
                                           (update_for (argument_of c))])) /\
    forall r t,
      exec i c (World (heap w) r t)
      = Done tt (World (<[bound i (event_of c) := m']> (heap w)) r
                       (t ++ [EvUpdate (bound i (event_of c))
                                       (update_for (argument_of c))])).
Proof.
  intros Hok. split; [apply event_has_method |]. intros c.
  destruct (exec_spec i c w Hok) as (m & m' & Hm & Hshape & Hrun).
  exists m, m'. split; [done |]. split; [done |]. split; [| done].
  rewrite <- (world_eta w) at 1. apply Hrun.
Qed.

Lemma method_updates_its_bound_metric_witness :
  bound_ok facade0 world0 /\
  (forall e, exists c, event_of c = e) /\
  forall c, exists m m',
    heap world0 !! bound facade0 (event_of c) = Some m /\
    match argument_of c with
    | NoArgument =>
        exists x, m = CounterObj x /\ m' = CounterObj (Float64.add x 1)
    | Count n =>
        exists x, m = CounterObj x
                  /\ m' = CounterObj (Float64.add x (float64_of_int n))
    | Elapsed d =>
        exists s, m = HistogramObj s
                  /\ m' = HistogramObj (s ++ [float64_of_int (Nanoseconds d)])
    end /\
    exec facade0 c world0
    = Done tt (World (<[bound facade0 (event_of c) := m']> (heap world0))
                     (registry world0)
                     (trace world0 ++ [EvUpdate (bound facade0 (event_of c))
                                                (update_for (argument_of c))])) /\
    forall r t,
      exec facade0 c (World (heap world0) r t)
      = Done tt (World (<[bound facade0 (event_of c) := m']> (heap world0)) r
                       (t ++ [EvUpdate (bound facade0 (event_of c))
                                       (update_for (argument_of c))])).
Proof.
  split; [exact bound_ok0 |].
  exact (method_updates_its_bound_metric facade0 world0 bound_ok0).
Defined.

(** C8: a method leaves every object of the heap other than its own
    metric as it was, in particular the metrics of the other 27 events;
    it leaves the registry as it was; the facade, a value that no
    method returns or changes, is still well bound afterwards; and two
    calls that write the same metric are calls of the same method. *)
Theorem method_frame
    (i : PrometheusInstrumentation) (c : call) (w : world) :
  bound_ok i w -> separate i ->
  exists w',
    exec i c w = Done tt w' /\
    (forall l, l <> bound i (event_of c) -> heap w' !! l = heap w !! l) /\
    (forall e, e <> event_of c -> heap w' !! bound i e = heap w !! bound i e) /\
    registry w' = registry w /\
    bound_ok i w' /\
    (forall c', bound i (event_of c') = bound i (event_of c) ->
                method_name c' = method_name c).
Proof.
  intros Hok Hsep.
  destruct (exec_run i c w Hok) as (m & m' & _ & _ & _ & _ & Hrun).
  specialize (Hrun (registry w) (trace w)). rewrite world_eta in Hrun.
  eexists. split; [exact Hrun |].
  split; [intros l Hl; by eapply exec_frame |].
  split.
  { intros e He. eapply exec_frame; [done |].
    intros Heq. by apply He, Hsep. }
  split; [by eapply exec_registry |].
  split; [by eapply exec_bound_ok |].
  intros c' Hc'. apply Hsep in Hc'.
  destruct c, c'; first [reflexivity | discriminate Hc'].
Qed.

Lemma method_frame_witness :
  bound_ok facade0 world0 /\ separate facade0 /\
  exists w',
    exec facade0 (DoSelectDuration 1500000) world0 = Done tt w' /\
    (forall l, l <> bound facade0 (event_of (DoSelectDuration 1500000)) ->
               heap w' !! l = heap world0 !! l) /\
    (forall e, e <> event_of (DoSelectDuration 1500000) ->
               heap w' !! bound facade0 e = heap world0 !! bound facade0 e) /\
    registry w' = registry world0 /\
    bound_ok facade0 w' /\
    (forall c', bound facade0 (event_of c')
                = bound facade0 (event_of (DoSelectDuration 1500000)) ->
                method_name c' = method_name (DoSelectDuration 1500000)).
Proof.
  split; [exact bound_ok0 |]. split; [exact separate0 |].
  exact (method_frame facade0 (DoSelectDuration 1500000) world0
           bound_ok0 separate0).
Defined.

(** C10, as amended: a method hands its argument to the metric as
    [float64(n)], respectively [float64(d.Nanoseconds())], whatever its
    sign, without validation or clamping; the float64 is the argument
    itself whenever the magnitude of the argument is at most [2^53]. *)
Theorem argument_is_handed_as_float64
    (i : PrometheusInstrumentation) (c : call) (w : world) :
  bound_ok i w ->
  exists w',
    exec i c w = Done tt w' /\
    trace w'
    = trace w
        ++ [EvUpdate (bound i (event_of c))
              match argument_of c with
              | NoArgument => Increment
              | Count n => IncrementBy (float64_of_int n)
              | Elapsed d => Add (float64_of_int (Nanoseconds d))
              end] /\
    match argument_of c with
    | NoArgument => True
    | Count n => - 2 ^ 53 <= n <= 2 ^ 53 -> float64_of_int n = n
    | Elapsed d =>
        - 2 ^ 53 <= Nanoseconds d <= 2 ^ 53 ->
        float64_of_int (Nanoseconds d) = Nanoseconds d
    end.
Proof.
  intros Hok.
  destruct (exec_run i c w Hok) as (m & m' & _ & _ & _ & _ & Hrun).
  specialize (Hrun (registry w) (trace w)). rewrite world_eta in Hrun.
  eexists. split; [exact Hrun |]. split.
  - cbn [trace]. by destruct c.
  - destruct (argument_of c); [done | apply of_int_exact ..].
Qed.

Lemma argument_is_handed_as_float64_witness :
  bound_ok facade0 world0 /\
  exists w',
    exec facade0 (DoWalkKeys (-3)) world0 = Done tt w' /\
    trace w'
    = trace world0
        ++ [EvUpdate (bound facade0 (event_of (DoWalkKeys (-3))))
                     (IncrementBy (float64_of_int (-3)))] /\
    (- 2 ^ 53 <= -3 <= 2 ^ 53 -> float64_of_int (-3) = -3).
Proof.
  split; [exact bound_ok0 |].
  exact (argument_is_handed_as_float64 facade0 (DoWalkKeys (-3)) world0
           bound_ok0).
Defined.

(** C10, as stated, fails: [InsertRecordCount(2^53 + 1)] hands the
    counter the delta [2^53], and [InsertCallDuration] of [2^53 + 1]
    nanoseconds hands the histogram the value [2^53]. *)
Lemma large_argument_is_rounded :
  float64_of_int (2 ^ 53 + 1) <> 2 ^ 53 + 1 /\
  (exists w',
     exec facade0 (DoInsertRecordCount (2 ^ 53 + 1)) world0 = Done tt w' /\
     last (trace w')
     = Some (EvUpdate (insertRecordCount facade0) (IncrementBy (2 ^ 53)))) /\
  (exists w',
     exec facade0 (DoInsertCallDuration (2 ^ 53 + 1)) world0 = Done tt w' /\
     last (trace w')
     = Some (EvUpdate (insertCallDuration facade0) (Add (2 ^ 53)))).
Proof.
  split; [by vm_compute |].
  split; eexists; split; reflexivity.
Qed.

(** C2, as amended: no method guards its argument; every call
    succeeds and hands its argument on as it is.  A call with a
    negative count [n] leaves the counter at its value plus
    [float64(n)]: at [x + n], below [x], as long as the magnitudes stay
    within [2^53].  A call with a negative duration records the
    negative value in the histogram. *)
Theorem negative_argument_is_not_guarded
    (i : PrometheusInstrumentation) (c : call) (w : world) :
  bound_ok i w ->
  exists w',
    exec i c w = Done tt w' /\
    last (trace w')
    = Some (EvUpdate (bound i (event_of c)) (update_for (argument_of c))) /\
    match argument_of c with
    | NoArgument => True
    | Count n =>
        exists x,
          counter_value w (bound i (event_of c)) = Some x /\
          counter_value w' (bound i (event_of c))
          = Some (Float64.add x (float64_of_int n)) /\
          (n < 0 -> - 2 ^ 53 <= n -> - 2 ^ 53 <= x + n -> x <= 2 ^ 53 ->
           counter_value w' (bound i (event_of c)) = Some (x + n)
           /\ x + n < x)
    | Elapsed d =>
        exists s,
          histogram_samples w (bound i (event_of c)) = Some s /\
          histogram_samples w' (bound i (event_of c))
          = Some (s ++ [float64_of_int (Nanoseconds d)]) /\
          (d < 0 -> - 2 ^ 53 <= d ->
           histogram_samples w' (bound i (event_of c)) = Some (s ++ [d]))
    end.
Proof.
  intros Hok.
  destruct (exec_spec i c w Hok) as (m & m' & Hm & Hshape & Hrun).
  specialize (Hrun (registry w) (trace w)). rewrite world_eta in Hrun.
  eexists. split; [exact Hrun |].
  split; [cbn [trace]; apply last_snoc |].
  assert (heap (World (<[bound i (event_of c) := m']> (heap w)) (registry w)
                      (trace w ++ [EvUpdate (bound i (event_of c))
                                            (update_for (argument_of c))]))
          !! bound i (event_of c) = Some m') as Hm'.
  { cbn [heap]. apply list_lookup_insert_eq. by eapply lookup_lt_Some. }
  unfold counter_value, histogram_samples. rewrite Hm, Hm'.
  destruct (argument_of c) as [| n | d]; [done | |].
  - destruct Hshape as (x & -> & ->). exists x.
    split; [done |]. split; [done |].
    intros Hn Hlo Hsum Hx. unfold float64_of_int.
    rewrite of_int_exact, add_exact by lia.
    split; [done | lia].
  - destruct Hshape as (s & -> & ->). exists s.
    split; [done |]. split; [done |].
    intros Hd Hlo. unfold float64_of_int, Nanoseconds.
    by rewrite of_int_exact by lia.
Qed.

Lemma negative_argument_is_not_guarded_witness :
  bound_ok facade0 world0 /\
  exists w',
    exec facade0 (DoRepairRequest (-2)) world0 = Done tt w' /\
    last (trace w')
    = Some (EvUpdate (bound facade0 (event_of (DoRepairRequest (-2))))
                     (update_for (argument_of (DoRepairRequest (-2))))) /\
    exists x,
      counter_value world0 (bound facade0 (event_of (DoRepairRequest (-2))))
      = Some x /\
      counter_value w' (bound facade0 (event_of (DoRepairRequest (-2))))
      = Some (Float64.add x (float64_of_int (-2))) /\
      (-2 < 0 -> - 2 ^ 53 <= -2 -> - 2 ^ 53 <= x + -2 -> x <= 2 ^ 53 ->
       counter_value w' (bound facade0 (event_of (DoRepairRequest (-2))))
       = Some (x + -2)
       /\ x + -2 < x).
Proof.
  split; [exact bound_ok0 |].
  exact (negative_argument_is_not_guarded facade0 (DoRepairRequest (-2)) world0
           bound_ok0).
Defined.

(** C2, as stated, fails: on a fresh facade [InsertRecordCount(-5)]
    hands the counter the delta -5 and takes it from 0 down to -5, and
    [InsertCallDuration] of -7 nanoseconds is handed to the histogram
    and recorded as it is. *)
Lemma negative_argument_decreases_counter :
  (exists w',
     exec facade0 (DoInsertRecordCount (-5)) world0 = Done tt w' /\
     last (trace w')
     = Some (EvUpdate (insertRecordCount facade0) (IncrementBy (-5))) /\
     counter_value world0 (insertRecordCount facade0) = Some 0 /\
     counter_value w' (insertRecordCount facade0) = Some (-5)) /\
  (exists w',
     exec facade0 (DoInsertCallDuration (-7)) world0 = Done tt w' /\
     last (trace w')
     = Some (EvUpdate (insertCallDuration facade0) (Add (-7))) /\
     histogram_samples world0 (insertCallDuration facade0) = Some [] /\
     histogram_samples w' (insertCallDuration facade0) = Some [-7]).
Proof. split; eexists; repeat split; reflexivity. Qed.

(** * Construction *)

(** The code and the catalogue of the specification agree on the
    suffix, the type and the argument of each of the 28 events. *)
Lemma catalogue_matches_spec :
  (fun e => (suffix e, kind e, arg e)) <$> catalogue = spec_catalogue.
Proof. reflexivity. Qed.

Lemma NoDup_catalogue : NoDup catalogue.
Proof. eapply NoDup_fmap_1, suffix_NoDup. Qed.

Lemma world_after_registry prefix w :
  registry (world_after prefix w)
  = registry w ++ registrations prefix (facade_at (length (heap w))).
Proof. reflexivity. Qed.

(** C3: where none of its names is taken, [New prefix] succeeds and
    adds to the registry exactly one entry per event of the catalogue,
    28 in all and in the order of the catalogue, each under the prefix
    followed by the suffix of the event and each referring to the
    metric in the field of the event; that metric is a fresh counter
    for a counter event and a fresh histogram for a latency event, as
    the catalogue of the specification lists them; and it is the metric
    that the method of the event updates. *)
Theorem New_registers_the_catalogue (prefix : string) (w : world) :
  (forall e, is_registered (prefix +:+ suffix e) (registry w) = false) ->
  exists i w',
    New prefix w = Done i w' /\
    registry w' = registry w ++ registrations prefix i /\
    length (registrations prefix i) = 28%nat /\
    (forall e, exists k,
        registrations prefix i !! k
        = Some (Registration (prefix +:+ suffix e) (help e) (bound i e))
        /\ spec_catalogue !! k = Some (suffix e, kind e, arg e)
        /\ forall k', registrations prefix i !! k'
                      = Some (Registration (prefix +:+ suffix e) (help e)
                                           (bound i e)) -> k' = k) /\
    (forall e, heap w' !! bound i e
               = Some match kind e with
                      | KCounter => CounterObj 0
                      | KHistogram => HistogramObj []
                      end) /\
    (forall e, (bound i e < length (heap w'))%nat
               /\ (length (heap w) <= bound i e)%nat) /\
    (forall c, exec i c
               = update_metric (bound i (event_of c))
                               (update_for (argument_of c))).
Proof.
  intros Hfree. exists (facade_at (length (heap w))), (world_after prefix w).
  split; [by apply New_run |].
  split; [apply world_after_registry |].
  split; [reflexivity |].
  split.
  { intros e. exists (index e). split; [| split].
    - unfold registrations. by rewrite list_lookup_fmap, catalogue_index.
    - rewrite <- catalogue_matches_spec.
      by rewrite list_lookup_fmap, catalogue_index.
    - intros k' Hk'. unfold registrations in Hk'.
      rewrite list_lookup_fmap in Hk'.
      destruct (catalogue !! k') as [e' |] eqn:He'; [| done].
      injection Hk' as Hname _ _.
      apply name_inj in Hname as [_ ->].
      eapply NoDup_lookup; [apply NoDup_catalogue | done |].
      apply catalogue_index. }
  split.
  { intros e. rewrite world_after_lookup. by destruct (kind e). }
  split.
  { intros e. rewrite bound_facade_at. unfold world_after. cbn [heap].
    rewrite length_app, length_fmap, catalogue_length.
    assert (index e < 28)%nat.
    { rewrite <- catalogue_length. eapply lookup_lt_Some, catalogue_index. }
    lia. }
  apply exec_update.
Qed.

Lemma New_registers_the_catalogue_witness :
  (forall e, is_registered ("prod_" +:+ suffix e) (registry world0) = false) /\
  exists i w',
    New "prod_" world0 = Done i w' /\
    registry w' = registry world0 ++ registrations "prod_" i /\
    length (registrations "prod_" i) = 28%nat /\
    (forall e, exists k,
        registrations "prod_" i !! k
        = Some (Registration ("prod_" +:+ suffix e) (help e) (bound i e))
        /\ spec_catalogue !! k = Some (suffix e, kind e, arg e)
        /\ forall k', registrations "prod_" i !! k'
                      = Some (Registration ("prod_" +:+ suffix e) (help e)
                                           (bound i e)) -> k' = k) /\
    (forall e, heap w' !! bound i e
               = Some match kind e with
                      | KCounter => CounterObj 0
                      | KHistogram => HistogramObj []
                      end) /\
    (forall e, (bound i e < length (heap w'))%nat
               /\ (length (heap world0) <= bound i e)%nat) /\
    (forall c, exec i c
               = update_metric (bound i (event_of c))
                               (update_for (argument_of c))).
Proof.
  assert (forall e, is_registered ("prod_" +:+ suffix e) (registry world0) = false)
    as Hfree by (intros e; destruct e; reflexivity).
  split; [exact Hfree |].
  exact (New_registers_the_catalogue "prod_" world0 Hfree).
Defined.

Lemma is_registered_true n r :
  is_registered n r = true <-> exists x, x ∈ r /\ reg_name x = n.
Proof.
  unfold is_registered. rewrite existsb_exists. split.
  - intros (x & Hin & Heq). exists x. split; [by apply list_elem_of_In |].
    symmetry. by apply String.eqb_eq.
  - intros (x & Hin & Heq). exists x. split; [by apply list_elem_of_In |].
    apply String.eqb_eq. by symmetry.
Qed.

Lemma is_registered_registrations prefix i n :
  is_registered n (registrations prefix i) = true
  <-> exists e, n = prefix +:+ suffix e.
Proof.
  rewrite is_registered_true. unfold registrations. split.
  - intros (x & Hin & <-). apply list_elem_of_fmap in Hin as (e & -> & _).
    by exists e.
  - intros (e & ->).
    exists (Registration (prefix +:+ suffix e) (help e) (bound i e)).
    split; [| reflexivity].
    apply list_elem_of_fmap. exists e. split; [done |]. apply catalogue_complete.
Qed.

Lemma index_lt e : (index e < 28)%nat.
Proof. rewrite <- catalogue_length. eapply lookup_lt_Some, catalogue_index. Qed.

Lemma prefix_append p s : String.prefix p (p +:+ s) = true.
Proof.
  induction p as [| a p IH]; [by destruct s |].
  rewrite append_cons. simpl. by destruct (Ascii.ascii_dec a a).
Qed.

Lemma names_NoDup prefix : NoDup ((fun e => prefix +:+ suffix e) <$> catalogue).
Proof.
  apply NoDup_fmap_2_strong; [| apply NoDup_catalogue].
  intros e1 e2 _ _ H. by apply name_inj in H as [_ ->].
Qed.

(** C9: the 28 names that [New prefix] registers are pairwise distinct,
    whatever the prefix; and where no registered name starts with the
    prefix, in particular in a fresh registry, [New prefix] does not
    run into the duplicate name error: it succeeds. *)
Theorem New_names_are_distinct (prefix : string) (w : world) :
  (forall name, is_registered name (registry w) = true ->
                String.prefix prefix name = false) ->
  NoDup ((fun e => prefix +:+ suffix e) <$> catalogue) /\
  length ((fun e => prefix +:+ suffix e) <$> catalogue) = 28%nat /\
  exists i w',
    New prefix w = Done i w' /\
    reg_name <$> registry w'
    = (reg_name <$> registry w) ++ ((fun e => prefix +:+ suffix e) <$> catalogue).
Proof.
  intros Hfree. split; [apply names_NoDup |]. split; [reflexivity |].
  exists (facade_at (length (heap w))), (world_after prefix w). split.
  - apply New_run. intros e.
    destruct (is_registered (prefix +:+ suffix e) (registry w)) eqn:He; [| done].
    apply Hfree in He. by rewrite prefix_append in He.
  - rewrite world_after_registry, fmap_app. f_equal.
Qed.

Lemma New_names_are_distinct_witness :
  (forall name, is_registered name (registry world0) = true ->
                String.prefix "prod_" name = false) /\
  NoDup ((fun e => "prod_" +:+ suffix e) <$> catalogue) /\
  length ((fun e => "prod_" +:+ suffix e) <$> catalogue) = 28%nat /\
  exists i w',
    New "prod_" world0 = Done i w' /\
    reg_name <$> registry w'
    = (reg_name <$> registry world0)
        ++ ((fun e => "prod_" +:+ suffix e) <$> catalogue).
Proof.
  assert (forall name, is_registered name (registry world0) = true ->
                       String.prefix "prod_" name = false) as Hfree.
  { intros name H. apply is_registered_true in H as (x & Hin & <-).
    apply list_elem_of_In in Hin. simpl in Hin.
    repeat (destruct Hin as [<- | Hin]; [reflexivity |]). destruct Hin. }
  split; [exact Hfree |].
  exact (New_names_are_distinct "prod_" world0 Hfree).
Defined.

Lemma registrations_metrics prefix b :
  reg_metric <$> registrations prefix (facade_at b)
  = (fun e => (index e + b)%nat) <$> catalogue.
Proof. reflexivity. Qed.

Lemma registrations_names prefix i :
  reg_name <$> registrations prefix i
  = (fun e => prefix +:+ suffix e) <$> catalogue.
Proof. unfold registrations. by rewrite <- list_fmap_compose. Qed.

Lemma metrics_NoDup b : NoDup ((fun e => (index e + b)%nat) <$> catalogue).
Proof.
  apply NoDup_fmap_2_strong; [| apply NoDup_catalogue].
  intros e1 e2 _ _ H. apply index_inj. lia.
Qed.

(** A second [New] with a prefix that is in use aborts at its first
    registration. *)
Lemma New_again prefix w :
  is_registered (prefix +:+ suffix insert_call_count) (registry w) = true ->
  New prefix w = Panic (AlreadyRegistered (prefix +:+ "insert_call_count")).
Proof. intros H. rewrite New_eq. cbn [catalogue find]. by rewrite H. Qed.

(** C6: registering a name that is already registered aborts, and so
    does [New] where one of its names is registered.  After a
    successful [New p1], a second [New p1] aborts on the first name of
    the catalogue, at once or after any calls on the facade, while
    [New p2] with another prefix whose names are free succeeds: the
    registry then holds the entries of both facades, under 56 distinct
    names and referring to 56 distinct metrics, all in their initial
    state, and a call on one facade leaves the metrics of the other as
    they are. *)
Theorem New_twice (p1 p2 : string) (w : world) :
  (forall e, is_registered (p1 +:+ suffix e) (registry w) = false) ->
  (forall e, is_registered (p2 +:+ suffix e) (registry w) = false) ->
  (forall name hlp l w0,
      is_registered name (registry w0) = true ->
      Register name hlp l w0 = Panic (AlreadyRegistered name)) /\
  (forall w0 e,
      is_registered (p1 +:+ suffix e) (registry w0) = true ->
      exists e', New p1 w0 = Panic (AlreadyRegistered (p1 +:+ suffix e'))) /\
  exists i1 w1,
    New p1 w = Done i1 w1 /\
    (forall cs w1', run i1 cs w1 = Done tt w1' ->
       New p1 w1' = Panic (AlreadyRegistered (p1 +:+ "insert_call_count"))) /\
    (p1 <> p2 ->
     exists i2 w2,
       New p2 w1 = Done i2 w2 /\
       registry w2
       = registry w ++ registrations p1 i1 ++ registrations p2 i2 /\
       NoDup (reg_name <$> registrations p1 i1 ++ registrations p2 i2) /\
       NoDup (reg_metric <$> registrations p1 i1 ++ registrations p2 i2) /\
       (forall e, heap w2 !! bound i1 e = Some (initial (kind e))
                  /\ heap w2 !! bound i2 e = Some (initial (kind e))) /\
       (forall c w3, exec i1 c w2 = Done tt w3 ->
                     forall e, heap w3 !! bound i2 e = heap w2 !! bound i2 e) /\
       (forall c w3, exec i2 c w2 = Done tt w3 ->
                     forall e, heap w3 !! bound i1 e = heap w2 !! bound i1 e)).
Proof.
  intros Hfree1 Hfree2. split.
  { intros name hlp l w0 H. unfold Register. by rewrite H. }
  split.
  { intros w0 e H. destruct (New_panics p1 w0 e H) as (e' & He' & _).
    by exists e'. }
  set (b1 := length (heap w)).
  set (w1 := world_after p1 w).
  assert (length (heap w1) = (28 + b1)%nat) as Hlen1.
  { unfold w1, world_after. cbn [heap].
    rewrite length_app, length_fmap, catalogue_length. lia. }
  exists (facade_at b1), w1.
  split; [by apply New_run |].
  split.
  { intros cs w1' Hrun. apply New_again.
    rewrite (run_registry _ _ _ _ Hrun).
    unfold w1. rewrite world_after_registry, is_registered_app.
    apply orb_true_iff. right. apply is_registered_registrations. by eexists. }
  intros Hne.
  assert (forall e, is_registered (p2 +:+ suffix e) (registry w1) = false)
    as Hfree2'.
  { intros e. unfold w1. rewrite world_after_registry, is_registered_app.
    rewrite Hfree2. cbn [orb].
    destruct (is_registered _ (registrations p1 _)) eqn:He; [| done].
    apply is_registered_registrations in He as [e' He].
    apply name_inj in He as [-> _]. done. }
  exists (facade_at (length (heap w1))), (world_after p2 w1).
  split; [by apply New_run |].
  rewrite Hlen1.
  split.
  { rewrite world_after_registry. unfold w1 at 1.
    rewrite world_after_registry, Hlen1. fold b1. by rewrite <- app_assoc. }
  split.
  { rewrite fmap_app, !registrations_names. apply NoDup_app.
    split; [apply names_NoDup |]. split; [| apply names_NoDup].
    intros n Hn1 Hn2.
    apply list_elem_of_fmap in Hn1 as (e1 & -> & _).
    apply list_elem_of_fmap in Hn2 as (e2 & Heq & _).
    apply name_inj in Heq as [-> _]. done. }
  split.
  { rewrite fmap_app, !registrations_metrics. apply NoDup_app.
    split; [apply metrics_NoDup |]. split; [| apply metrics_NoDup].
    intros l Hl1 Hl2.
    apply list_elem_of_fmap in Hl1 as (e1 & -> & _).
    apply list_elem_of_fmap in Hl2 as (e2 & Heq & _).
    pose proof (index_lt e1). lia. }
  split.
  { intros e. split.
    - rewrite world_after_old.
      + apply world_after_lookup.
      + rewrite Hlen1, bound_facade_at. pose proof (index_lt e). lia.
    - rewrite <- Hlen1. apply world_after_lookup. }
  split.
  - intros c w3 Hex e. eapply exec_frame; [done |].
    rewrite !bound_facade_at. pose proof (index_lt (event_of c)). lia.
  - intros c w3 Hex e. eapply exec_frame; [done |].
    rewrite !bound_facade_at. pose proof (index_lt e). lia.
Qed.

Lemma New_twice_witness :
  (forall e, is_registered ("a_" +:+ suffix e) (registry world0) = false) /\
  (forall e, is_registered ("b_" +:+ suffix e) (registry world0) = false) /\
  (forall name hlp l w0,
      is_registered name (registry w0) = true ->
      Register name hlp l w0 = Panic (AlreadyRegistered name)) /\
  (forall w0 e,
      is_registered ("a_" +:+ suffix e) (registry w0) = true ->
      exists e', New "a_" w0 = Panic (AlreadyRegistered ("a_" +:+ suffix e'))) /\
  exists i1 w1,
    New "a_" world0 = Done i1 w1 /\
    (forall cs w1', run i1 cs w1 = Done tt w1' ->
       New "a_" w1'
       = Panic (AlreadyRegistered ("a_" +:+ "insert_call_count"))) /\
    ("a_" <> "b_" ->
     exists i2 w2,
       New "b_" w1 = Done i2 w2 /\
       registry w2
       = registry world0 ++ registrations "a_" i1 ++ registrations "b_" i2 /\
       NoDup (reg_name <$> registrations "a_" i1 ++ registrations "b_" i2) /\
       NoDup (reg_metric <$> registrations "a_" i1 ++ registrations "b_" i2) /\
       (forall e, heap w2 !! bound i1 e = Some (initial (kind e))
                  /\ heap w2 !! bound i2 e = Some (initial (kind e))) /\
       (forall c w3, exec i1 c w2 = Done tt w3 ->
                     forall e, heap w3 !! bound i2 e = heap w2 !! bound i2 e) /\
       (forall c w3, exec i2 c w2 = Done tt w3 ->
                     forall e, heap w3 !! bound i1 e = heap w2 !! bound i1 e)).
Proof.
  assert (forall e, is_registered ("a_" +:+ suffix e) (registry world0) = false)
    as Ha by (intros e; destruct e; reflexivity).
  assert (forall e, is_registered ("b_" +:+ suffix e) (registry world0) = false)
    as Hb by (intros e; destruct e; reflexivity).
  split; [exact Ha |]. split; [exact Hb |].
  exact (New_twice "a_" "b_" world0 Ha Hb).
Defined.

(** * The scenario of the specification *)

Lemma scenario_all_orders : forallb scenario_ok (permutations scenario) = true.
Proof. vm_compute. reflexivity. Qed.

Lemma scenario_ok_spec cs :
  scenario_ok cs = true ->
  exists w,
    run facade0 cs world0 = Done tt w /\
    "test_insert_call_count 3" ∈ Render w /\
    "test_insert_record_count 10" ∈ Render w /\
    counter_value w (insertCallCount facade0) = Some 3 /\
    counter_value w (insertRecordCount facade0) = Some 10.
Proof.
  unfold scenario_ok.
  destruct (run facade0 cs world0) as [[] w | f]; [| discriminate].
  intros Hok.
  apply andb_true_iff in Hok as [Hok H4].
  apply andb_true_iff in Hok as [Hok H3].
  apply andb_true_iff in Hok as [H1 H2].
  apply bool_decide_eq_true in H1, H2, H3, H4.
  exists w. exact (conj eq_refl (conj H1 (conj H2 (conj H3 H4)))).
Qed.

(** C7: a facade is built by [New("test_")] in a fresh process; after
    three calls of [InsertCall()] and two of [InsertRecordCount(5)], in
    whatever order, the rendering of the registry has the lines
    [test_insert_call_count 3] and [test_insert_record_count 10], and
    the two counters hold 3 and 10. *)
Theorem scenario_rendering (cs : list call) :
  cs ≡ₚ scenario ->
  exists i w1 w,
    New "test_" boot = Done i w1 /\
    run i cs w1 = Done tt w /\
    "test_insert_call_count 3" ∈ Render w /\
    "test_insert_record_count 10" ∈ Render w /\
    counter_value w (insertCallCount i) = Some 3 /\
    counter_value w (insertRecordCount i) = Some 10.
Proof.
  intros Hperm.
  assert (scenario_ok cs = true) as Hok.
  { pose proof scenario_all_orders as Hall.
    rewrite forallb_forall in Hall. apply Hall.
    apply list_elem_of_In, permutations_Permutation. by symmetry. }
  apply scenario_ok_spec in Hok as (w & Hw).
  exists facade0, world0, w. exact (conj New_test Hw).
Qed.

Lemma scenario_rendering_witness :
  scenario ≡ₚ scenario /\
  exists i w1 w,
    New "test_" boot = Done i w1 /\
    run i scenario w1 = Done tt w /\
    "test_insert_call_count 3" ∈ Render w /\
    "test_insert_record_count 10" ∈ Render w /\
    counter_value w (insertCallCount i) = Some 3 /\
    counter_value w (insertRecordCount i) = Some 10.
Proof.
  assert (scenario ≡ₚ scenario) as Hperm by reflexivity.
  split; [exact Hperm |].
  exact (scenario_rendering scenario Hperm).
Defined.

(** * Counters under sequences of calls *)

Lemma total_Permutation ks ks' : ks ≡ₚ ks' -> total ks = total ks'.
Proof. induction 1; simpl; lia. Qed.

Lemma world_after_counters_sound prefix w :
  counters_sound (facade_at (length (heap w))) (world_after prefix w).
Proof.
  intros e x. rewrite world_after_lookup.
  destruct (kind e); simpl; [| done]. intros [= <-].
  split; [lia | by apply representable_small].
Qed.

Lemma exec_monotone i c w w' :
  bound_ok i w -> counters_sound i w -> nonneg_call c ->
  exec i c w = Done tt w' ->
  counters_sound i w' /\
  forall e x, heap w !! bound i e = Some (CounterObj x) ->
              exists x', heap w' !! bound i e = Some (CounterObj x') /\ x <= x'.
Proof.
  intros Hok Hsound Hnn Hex.
  destruct (exec_spec i c w Hok) as (m & m' & Hm & Hshape & Hrun).
  specialize (Hrun (registry w) (trace w)).
  rewrite world_eta, Hex in Hrun. injection Hrun as ->. cbn [heap].
  assert (forall x, m = CounterObj x ->
                    exists x', m' = CounterObj x' /\ x <= x'
                               /\ 0 <= x' /\ Float64.representable x') as Hstep.
  { intros x ->. destruct (Hsound _ _ Hm) as [Hx Hrep].
    unfold nonneg_call in Hnn.
    destruct (argument_of c) as [| n | d].
    - destruct Hshape as (? & [= <-] & ->). eexists. split; [done |].
      split; [apply add_nonneg_ge; [done .. | lia] |].
      apply add_nonneg_representable; lia.
    - destruct Hshape as (? & [= <-] & ->). eexists. split; [done |].
      pose proof (of_int_nonneg n Hnn).
      split; [by apply add_nonneg_ge |].
      by apply add_nonneg_representable.
    - by destruct Hshape as (? & ? & _). }
  assert (bound i (event_of c) < length (heap w))%nat as Hlt
    by by eapply lookup_lt_Some.
  split.
  - intros e x. cbn [heap].
    destruct (decide (bound i e = bound i (event_of c))) as [-> | Hne].
    + rewrite list_lookup_insert_eq by done. intros [= ->].
      destruct m as [x0 | s].
      * destruct (Hstep x0 eq_refl) as (x' & [= <-] & _ & Hx' & Hrep'). done.
      * destruct (argument_of c); by destruct Hshape as (? & ? & ?).
    + rewrite list_lookup_insert_ne by done. apply Hsound.
  - intros e x.
    destruct (decide (bound i e = bound i (event_of c))) as [-> | Hne].
    + rewrite Hm. intros [= ->].
      destruct (Hstep x eq_refl) as (x' & -> & Hle & _).
      exists x'. by rewrite list_lookup_insert_eq.
    + rewrite list_lookup_insert_ne by done. intros Hx. exists x. split; [done | lia].
Qed.

Lemma run_monotone i cs w :
  bound_ok i w -> counters_sound i w -> Forall nonneg_call cs ->
  exists w',
    run i cs w = Done tt w' /\ bound_ok i w' /\ counters_sound i w' /\
    forall e x, heap w !! bound i e = Some (CounterObj x) ->
                exists x', heap w' !! bound i e = Some (CounterObj x')
                           /\ x <= x'.
Proof.
  revert w. induction cs as [| c cs IH]; intros w Hok Hsound Hnn.
  - exists w. split; [done |]. split; [done |]. split; [done |].
    intros e x Hx. exists x. split; [done | lia].
  - apply Forall_cons in Hnn as [Hc Hcs].
    destruct (exec_spec i c w Hok) as (m & m' & _ & _ & Hrun).
    specialize (Hrun (registry w) (trace w)). rewrite world_eta in Hrun.
    pose proof (exec_bound_ok i c w _ Hok Hrun) as Hok1.
    destruct (exec_monotone i c w _ Hok Hsound Hc Hrun) as [Hsound1 Hmono1].
    destruct (IH _ Hok1 Hsound1 Hcs) as (w' & Hw' & Hok' & Hsound' & Hmono').
    exists w'. rewrite run_cons, Hrun.
    split; [done |]. split; [done |]. split; [done |].
    intros e x Hx. destruct (Hmono1 e x Hx) as (x1 & Hx1 & Hle1).
    destruct (Hmono' e x1 Hx1) as (x' & Hx' & Hle'). exists x'. split; [done | lia].
Qed.

(** C4: every counter of a facade is 0 when [New] returns, and along
    any sequence of calls with non-negative arguments, the value that a
    counter has at one point is at most the value it has at any later
    point: no call decreases or resets it. *)
Theorem counters_start_at_zero_and_never_decrease
    (prefix : string) (w0 : world) (i : PrometheusInstrumentation)
    (w1 : world) (cs1 cs2 : list call) :
  New prefix w0 = Done i w1 ->
  Forall nonneg_call cs1 -> Forall nonneg_call cs2 ->
  (forall e, kind e = KCounter -> counter_value w1 (bound i e) = Some 0) /\
  exists w2 w3,
    run i cs1 w1 = Done tt w2 /\
    run i cs2 w2 = Done tt w3 /\
    forall e, kind e = KCounter ->
      exists v2 v3,
        counter_value w2 (bound i e) = Some v2 /\
        counter_value w3 (bound i e) = Some v3 /\
        0 <= v2 <= v3.
Proof.
  intros Hnew Hnn1 Hnn2.
  apply New_inv in Hnew as (-> & -> & _).
  pose proof (world_after_bound_ok prefix w0) as Hok1.
  pose proof (world_after_counters_sound prefix w0) as Hsound1.
  split.
  { intros e He. unfold counter_value. by rewrite world_after_lookup, He. }
  destruct (run_monotone _ cs1 _ Hok1 Hsound1 Hnn1)
    as (w2 & Hw2 & Hok2 & Hsound2 & Hmono2).
  destruct (run_monotone _ cs2 _ Hok2 Hsound2 Hnn2)
    as (w3 & Hw3 & _ & _ & Hmono3).
  exists w2, w3. split; [done |]. split; [done |].
  intros e He.
  destruct (Hmono2 e 0) as (v2 & Hv2 & Hle2).
  { by rewrite world_after_lookup, He. }
  destruct (Hmono3 e v2 Hv2) as (v3 & Hv3 & Hle3).
  exists v2, v3. unfold counter_value. rewrite Hv2, Hv3.
  split; [done |]. split; [done | lia].
Qed.

Lemma counters_start_at_zero_and_never_decrease_witness :
  New "test_" boot = Done facade0 world0 /\
  Forall nonneg_call [DoInsertCall; DoSelectKeys 4] /\
  Forall nonneg_call [DoSelectKeys 0; DoRepairRequest 7; DoSelectDuration 9] /\
  (forall e, kind e = KCounter ->
             counter_value world0 (bound facade0 e) = Some 0) /\
  exists w2 w3,
    run facade0 [DoInsertCall; DoSelectKeys 4] world0 = Done tt w2 /\
    run facade0 [DoSelectKeys 0; DoRepairRequest 7; DoSelectDuration 9] w2
    = Done tt w3 /\
    forall e, kind e = KCounter ->
      exists v2 v3,
        counter_value w2 (bound facade0 e) = Some v2 /\
        counter_value w3 (bound facade0 e) = Some v3 /\
        0 <= v2 <= v3.
Proof.
  assert (Forall nonneg_call [DoInsertCall; DoSelectKeys 4]) as H1.
  { repeat constructor; unfold nonneg_call; simpl; lia. }
  assert (Forall nonneg_call
            [DoSelectKeys 0; DoRepairRequest 7; DoSelectDuration 9]) as H2.
  { repeat constructor; unfold nonneg_call; simpl; lia. }
  split; [exact New_test |]. split; [exact H1 |]. split; [exact H2 |].
  exact (counters_start_at_zero_and_never_decrease
           "test_" boot facade0 world0 _ _ New_test H1 H2).
Defined.

Lemma run_counts i (mk : int -> call) e ks w x :
  (forall n, event_of (mk n) = e /\ argument_of (mk n) = Count n) ->
  bound_ok i w ->
  counter_value w (bound i e) = Some x ->
  0 <= x -> Forall (fun k => 0 <= k) ks -> x + total ks <= 2 ^ 53 ->
  exists w',
    run i (mk <$> ks) w = Done tt w' /\
    counter_value w' (bound i e) = Some (x + total ks).
Proof.
  intros Hmk. revert w x.
  induction ks as [| k ks IH]; intros w x Hok Hx Hx0 Hnn Hsum.
  - exists w. split; [done |]. simpl. by rewrite Z.add_0_r.
  - apply Forall_cons in Hnn as [Hk Hks]. simpl in Hsum.
    assert (0 <= total ks) as Htot.
    { clear -Hks. induction Hks; simpl; lia. }
    destruct (Hmk k) as [Hev Harg].
    destruct (exec_spec i (mk k) w Hok) as (m & m' & Hm & Hshape & Hrun).
    specialize (Hrun (registry w) (trace w)). rewrite world_eta in Hrun.
    rewrite Harg in Hshape. rewrite Hev in Hm, Hrun.
    destruct Hshape as (x0 & -> & ->).
    unfold counter_value in Hx. rewrite Hm in Hx. injection Hx as ->.
    unfold float64_of_int in Hrun.
    rewrite of_int_exact, add_exact in Hrun by lia.
    pose proof (exec_bound_ok i (mk k) w _ Hok Hrun) as Hok1.
    destruct (IH _ (x + k) Hok1) as (w' & Hw' & Hval); [| lia | done | lia |].
    { unfold counter_value. cbn [heap].
      rewrite list_lookup_insert_eq; [done |]. by eapply lookup_lt_Some. }
    exists w'. rewrite fmap_cons, run_cons, Hrun. split; [done |].
    rewrite Hval. simpl. f_equal. lia.
Qed.

(** C5, as amended: on a freshly constructed facade, a sequence of
    calls of one count taking method with counts [k1 .. km], all
    non-negative and of a sum of at most [2^53], leaves the counter of
    the method at [k1 + .. + km], in whatever order the calls are made. *)
Theorem count_calls_add_up
    (mk : int -> call) (e : event) (prefix : string) (w0 : world)
    (i : PrometheusInstrumentation) (w1 : world) (ks ks' : list int) :
  (forall n, event_of (mk n) = e /\ argument_of (mk n) = Count n) ->
  New prefix w0 = Done i w1 ->
  Forall (fun k => 0 <= k) ks -> total ks <= 2 ^ 53 ->
  ks' ≡ₚ ks ->
  exists w2,
    run i (mk <$> ks') w1 = Done tt w2 /\
    counter_value w2 (bound i e) = Some (total ks).
Proof.
  intros Hmk Hnew Hnn Hsum Hperm.
  apply New_inv in Hnew as (-> & -> & _).
  assert (kind e = KCounter) as He.
  { destruct (Hmk 0) as [<- Harg]. by destruct (mk 0). }
  rewrite <- (total_Permutation _ _ Hperm) in *.
  rewrite <- Hperm in Hnn.
  replace (total ks') with (0 + total ks') by lia.
  apply run_counts; try done.
  - apply world_after_bound_ok.
  - unfold counter_value. by rewrite world_after_lookup, He.
Qed.

Lemma count_calls_add_up_witness :
  (forall n, event_of (DoRepairRequest n) = repair_request_count
             /\ argument_of (DoRepairRequest n) = Count n) /\
  New "test_" boot = Done facade0 world0 /\
  Forall (fun k => 0 <= k) [3; 0; 4] /\ total [3; 0; 4] <= 2 ^ 53 /\
  [4; 3; 0] ≡ₚ [3; 0; 4] /\
  exists w2,
    run facade0 (DoRepairRequest <$> [4; 3; 0]) world0 = Done tt w2 /\
    counter_value w2 (bound facade0 repair_request_count)
    = Some (total [3; 0; 4]).
Proof.
  assert (forall n, event_of (DoRepairRequest n) = repair_request_count
                    /\ argument_of (DoRepairRequest n) = Count n) as Hmk
    by (intros n; split; reflexivity).
  assert (Forall (fun k => 0 <= k) [3; 0; 4]) as Hnn
    by (repeat constructor; lia).
  assert (total [3; 0; 4] <= 2 ^ 53) as Hsum by (vm_compute; discriminate).
  assert ([4; 3; 0] ≡ₚ [3; 0; 4]) as Hperm.
  { apply (bool_decide_unpack _). vm_compute. exact I. }
  split; [exact Hmk |]. split; [exact New_test |]. split; [exact Hnn |].
  split; [exact Hsum |]. split; [exact Hperm |].
  exact (count_calls_add_up DoRepairRequest repair_request_count "test_" boot
           facade0 world0 [3; 0; 4] [4; 3; 0] Hmk New_test Hnn Hsum Hperm).
Defined.

(** C5, as stated, fails: one call [RepairRequest(2^53 + 1)] on a
    fresh facade leaves the counter at [2^53]. *)
Lemma large_count_is_not_added_exactly :
  0 <= 2 ^ 53 + 1 /\
  exists w,
    run facade0 (DoRepairRequest <$> [2 ^ 53 + 1]) world0 = Done tt w /\
    counter_value w (repairRequestCount facade0) = Some (2 ^ 53) /\
    counter_value w (repairRequestCount facade0)
    <> Some (total [2 ^ 53 + 1]).
Proof.
  split; [by vm_compute |].
  eexists. split; [reflexivity |]. split; [reflexivity |]. by vm_compute.
Qed.

(** Beyond [2^53] the order of the calls shows in the counter. *)
Lemma order_matters_beyond_exact_range :
  exists w w',
    run facade0 (DoRepairRequest <$> [2 ^ 53; 1; 1]) world0 = Done tt w /\
    run facade0 (DoRepairRequest <$> [1; 1; 2 ^ 53]) world0 = Done tt w' /\
    counter_value w (repairRequestCount facade0) = Some (2 ^ 53) /\
    counter_value w' (repairRequestCount facade0) = Some (2 ^ 53 + 2).
Proof. do 2 eexists. repeat split; reflexivity. Qed.

(** * Runs seen method by method *)

Lemma apply_update_kind_of u m m' :
  apply_update u m = Some m' -> kind_of m' = kind_of m.
Proof. destruct u, m; simpl; intros H; by inversion H. Qed.

Lemma exec_inv i c w w' :
  exec i c w = Done tt w' ->
  exists m m',
    heap w !! bound i (event_of c) = Some m /\
    apply_update (update_for (argument_of c)) m = Some m' /\
    w' = World (<[bound i (event_of c) := m']> (heap w)) (registry w)
               (trace w ++ [logged i c]).
Proof. rewrite exec_update. apply update_metric_inv. Qed.

Lemma run_succeeds i cs w :
  bound_ok i w -> exists w', run i cs w = Done tt w' /\ bound_ok i w'.
Proof.
  revert w. induction cs as [| c cs IH]; intros w Hok; [by exists w |].
  destruct (exec_spec i c w Hok) as (m & m' & _ & _ & Hrun).
  specialize (Hrun (registry w) (trace w)). rewrite world_eta in Hrun.
  destruct (IH _ (exec_bound_ok i c w _ Hok Hrun)) as (w' & Hw' & Hok').
  exists w'. by rewrite run_cons, Hrun.
Qed.

Lemma calls_for_cons e c cs :
  calls_for e (c :: cs)
  = if decide (event_of c = e) then c :: calls_for e cs else calls_for e cs.
Proof. unfold calls_for. rewrite filter_cons. by destruct (decide _). Qed.

Lemma calls_for_event e cs : Forall (fun c => event_of c = e) (calls_for e cs).
Proof.
  apply Forall_forall. intros c Hc. unfold calls_for in Hc.
  by apply list_elem_of_filter in Hc as [Hc _].
Qed.

(** The metric of an event after a run is what the calls of its own
    method make of it. *)
Lemma run_object i cs w w' e m :
  separate i -> run i cs w = Done tt w' ->
  heap w !! bound i e = Some m ->
  heap w' !! bound i e = apply_updates (updates_for e cs) m.
Proof.
  intros Hsep. revert w m. induction cs as [| c cs IH]; intros w m Hrun Hm.
  - injection Hrun as <-. done.
  - rewrite run_cons in Hrun.
    destruct (exec i c w) as [[] w1 | f] eqn:Hex; [| done].
    apply exec_inv in Hex as (m0 & m0' & Hm0 & Hu & ->).
    unfold updates_for. rewrite calls_for_cons.
    destruct (decide (event_of c = e)) as [<- | Hne].
    + rewrite Hm0 in Hm. injection Hm as ->.
      rewrite fmap_cons. cbn [apply_updates]. rewrite Hu.
      apply (IH _ _ Hrun). cbn [heap].
      apply list_lookup_insert_eq. by eapply lookup_lt_Some.
    + apply (IH _ _ Hrun). cbn [heap].
      rewrite list_lookup_insert_ne; [done |].
      intros Heq. apply Hne. by apply Hsep.
Qed.

(** A run leaves alone what none of its calls writes. *)
Lemma run_frame i cs w w' l :
  run i cs w = Done tt w' ->
  (forall c, c ∈ cs -> bound i (event_of c) <> l) ->
  heap w' !! l = heap w !! l.
Proof.
  revert w. induction cs as [| c cs IH]; intros w Hrun Hl.
  - by injection Hrun as <-.
  - rewrite run_cons in Hrun.
    destruct (exec i c w) as [[] w1 | f] eqn:Hex; [| done].
    rewrite (IH _ Hrun).
    + eapply exec_frame; [done |]. intros Heq.
      apply (Hl c); [apply list_elem_of_here | done].
    + intros c' Hc'. by apply Hl, list_elem_of_further.
Qed.

(** X1: on a well bound facade with separate metrics a run of calls
    succeeds, and the metric of each event ends as the object that the
    updates of the calls of its own method, in their order, make of the
    object it was: calls of other methods have no influence on it. *)
Theorem run_by_method
    (i : PrometheusInstrumentation) (cs : list call) (w : world) :
  bound_ok i w -> separate i ->
  exists w',
    run i cs w = Done tt w' /\
    forall e, exists m m',
      heap w !! bound i e = Some m /\
      apply_updates (updates_for e cs) m = Some m' /\
      heap w' !! bound i e = Some m'.
Proof.
  intros Hok Hsep. destruct (run_succeeds i cs w Hok) as (w' & Hrun & Hok').
  exists w'. split; [done |]. intros e.
  destruct (Hok e) as (m & Hm & _). destruct (Hok' e) as (m' & Hm' & _).
  exists m, m'. split; [done |].
  by rewrite <- (run_object i cs w w' e m Hsep Hrun Hm).
Qed.

Lemma run_by_method_witness :
  bound_ok facade0 world0 /\ separate facade0 /\
  exists w',
    run facade0 [DoInsertCall; DoSelectKeys 3; DoInsertCall] world0
    = Done tt w' /\
    forall e, exists m m',
      heap world0 !! bound facade0 e = Some m /\
      apply_updates
        (updates_for e [DoInsertCall; DoSelectKeys 3; DoInsertCall]) m
      = Some m' /\
      heap w' !! bound facade0 e = Some m'.
Proof.
  split; [exact bound_ok0 |]. split; [exact separate0 |].
  exact (run_by_method facade0 [DoInsertCall; DoSelectKeys 3; DoInsertCall]
           world0 bound_ok0 separate0).
Defined.

Lemma total_nonneg ks : Forall (fun k => 0 <= k) ks -> 0 <= total ks.
Proof. induction 1; simpl; lia. Qed.

Lemma apply_updates_counter e ds x :
  kind e = KCounter ->
  Forall (fun c => event_of c = e) ds ->
  Forall (fun c => 0 <= count_of c) ds ->
  0 <= x -> x + total (count_of <$> ds) <= 2 ^ 53 ->
  apply_updates ((fun c => update_for (argument_of c)) <$> ds) (CounterObj x)
  = Some (CounterObj (x + total (count_of <$> ds))).
Proof.
  intros He Hev. revert x.
  induction Hev as [| c ds Hc Hds IH]; intros x Hnn Hx Hsum.
  - simpl. by rewrite Z.add_0_r.
  - apply Forall_cons in Hnn as [Hk Hnn]. rewrite !fmap_cons in *.
    change (total (count_of c :: (count_of <$> ds)))
      with (count_of c + total (count_of <$> ds)) in *.
    pose proof (total_nonneg _ (proj2 (Forall_fmap _ _ _) Hnn)) as Htot.
    assert (arg_kind_of (argument_of c) <> DurationArg) as Harg.
    { rewrite <- arg_event_of, Hc. intros Hd. apply kind_arg in Hd. congruence. }
    cbn [apply_updates].
    assert (forall y, y = x + count_of c ->
              apply_updates ((fun c => update_for (argument_of c)) <$> ds)
                            (CounterObj y)
              = Some (CounterObj (x + (count_of c
                                       + total (count_of <$> ds))))) as Hrest.
    { intros y ->. rewrite IH by (done || lia). f_equal. f_equal. lia. }
    revert Hk Hsum Hrest. generalize (total (count_of <$> ds)) Htot.
    unfold count_of.
    destruct (argument_of c) as [| n | d]; [| | done];
      intros T HT Hk Hsum Hrest; cbn [update_for apply_update].
    + apply Hrest. apply add_exact. lia.
    + apply Hrest. unfold float64_of_int.
      rewrite of_int_exact by lia. apply add_exact. lia.
Qed.

(** X2: on a freshly constructed facade and after any run of calls of
    any methods, a counter holds the number of calls of its method, for
    a method without argument, or the sum of their counts, provided
    these counts are non-negative and add up to at most [2^53]; what
    the calls of the other methods are handed does not matter. *)
Theorem counter_after_run
    (prefix : string) (w0 : world) (i : PrometheusInstrumentation)
    (w1 : world) (e : event) (cs : list call) :
  New prefix w0 = Done i w1 ->
  kind e = KCounter ->
  Forall (fun c => 0 <= count_of c) (calls_for e cs) ->
  total (count_of <$> calls_for e cs) <= 2 ^ 53 ->
  exists w2,
    run i cs w1 = Done tt w2 /\
    counter_value w2 (bound i e) = Some (total (count_of <$> calls_for e cs)).
Proof.
  intros Hnew He Hnn Hsum.
  destruct (New_bound_ok _ _ _ _ Hnew) as [Hok Hsep].
  apply New_inv in Hnew as (-> & -> & _).
  destruct (run_succeeds _ cs _ Hok) as (w2 & Hrun & _).
  exists w2. split; [done |]. unfold counter_value.
  rewrite (run_object _ cs _ w2 e (CounterObj 0) Hsep Hrun).
  - unfold updates_for.
    rewrite (apply_updates_counter e (calls_for e cs) 0 He
               (calls_for_event e cs) Hnn ltac:(lia) ltac:(lia)).
    by rewrite Z.add_0_l.
  - by rewrite world_after_lookup, He.
Qed.

Lemma counter_after_run_witness :
  New "test_" boot = Done facade0 world0 /\
  kind select_keys_count = KCounter /\
  Forall (fun c => 0 <= count_of c)
    (calls_for select_keys_count
       [DoSelectKeys 3; DoWalkKeys (-1); DoSelectDuration (-8); DoSelectKeys 4]) /\
  total (count_of <$> calls_for select_keys_count
       [DoSelectKeys 3; DoWalkKeys (-1); DoSelectDuration (-8); DoSelectKeys 4])
  <= 2 ^ 53 /\
  exists w2,
    run facade0
      [DoSelectKeys 3; DoWalkKeys (-1); DoSelectDuration (-8); DoSelectKeys 4]
      world0 = Done tt w2 /\
    counter_value w2 (bound facade0 select_keys_count)
    = Some (total (count_of <$> calls_for select_keys_count
         [DoSelectKeys 3; DoWalkKeys (-1); DoSelectDuration (-8);
          DoSelectKeys 4])).
Proof.
  assert (Forall (fun c => 0 <= count_of c)
            (calls_for select_keys_count
               [DoSelectKeys 3; DoWalkKeys (-1); DoSelectDuration (-8);
                DoSelectKeys 4])) as Hnn.
  { repeat constructor; unfold count_of; simpl; lia. }
  assert (total (count_of <$> calls_for select_keys_count
            [DoSelectKeys 3; DoWalkKeys (-1); DoSelectDuration (-8);
             DoSelectKeys 4]) <= 2 ^ 53) as Hsum
    by (vm_compute; discriminate).
  split; [exact New_test |]. split; [reflexivity |].
  split; [exact Hnn |]. split; [exact Hsum |].
  exact (counter_after_run "test_" boot facade0 world0 select_keys_count _
           New_test eq_refl Hnn Hsum).
Defined.

Lemma apply_updates_histogram e ds s :
  kind e = KHistogram ->
  Forall (fun c => event_of c = e) ds ->
  apply_updates ((fun c => update_for (argument_of c)) <$> ds) (HistogramObj s)
  = Some (HistogramObj (s ++ omap observation_of ds))
  /\ length (omap observation_of ds) = length ds.
Proof.
  intros He Hev. revert s.
  induction Hev as [| c ds Hc Hds IH]; intros s.
  - simpl. by rewrite app_nil_r.
  - assert (arg_kind_of (argument_of c) = DurationArg) as Harg.
    { rewrite <- arg_event_of, Hc. by apply kind_arg. }
    assert (exists d, argument_of c = Elapsed d) as [d Hd].
    { destruct (argument_of c) as [| n | d]; try discriminate Harg. by exists d. }
    assert (omap observation_of (c :: ds)
            = float64_of_int (Nanoseconds d) :: omap observation_of ds) as ->.
    { cbn [omap list_omap]. unfold observation_of at 1. by rewrite Hd. }
    rewrite fmap_cons, Hd. cbn [apply_updates update_for apply_update].
    destruct (IH (s ++ [float64_of_int (Nanoseconds d)])) as [-> Hlen].
    split; [by rewrite <- app_assoc |]. cbn [length]. by rewrite Hlen.
Qed.

(** X3: on a freshly constructed facade and after any run of calls of
    any methods, a histogram holds one observation for each call of its
    method, in the order of these calls: the nanoseconds of the
    duration as a float64.  Its count is the number of these calls. *)
Theorem histogram_after_run
    (prefix : string) (w0 : world) (i : PrometheusInstrumentation)
    (w1 : world) (e : event) (cs : list call) :
  New prefix w0 = Done i w1 ->
  kind e = KHistogram ->
  exists w2,
    run i cs w1 = Done tt w2 /\
    histogram_samples w2 (bound i e)
    = Some (omap observation_of (calls_for e cs)) /\
    histogram_count (omap observation_of (calls_for e cs))
    = Z.of_nat (length (calls_for e cs)).
Proof.
  intros Hnew He.
  destruct (New_bound_ok _ _ _ _ Hnew) as [Hok Hsep].
  apply New_inv in Hnew as (-> & -> & _).
  destruct (run_succeeds _ cs _ Hok) as (w2 & Hrun & _).
  destruct (apply_updates_histogram e (calls_for e cs) [] He
              (calls_for_event e cs)) as [Happ Hlen].
  exists w2. split; [done |]. split.
  - unfold histogram_samples.
    rewrite (run_object _ cs _ w2 e (HistogramObj []) Hsep Hrun).
    + unfold updates_for. by rewrite Happ.
    + by rewrite world_after_lookup, He.
  - unfold histogram_count. by rewrite Hlen.
Qed.

Lemma histogram_after_run_witness :
  New "test_" boot = Done facade0 world0 /\
  kind select_duration_nanoseconds = KHistogram /\
  exists w2,
    run facade0
      [DoSelectDuration 1500000; DoSelectCall; DoInsertCallDuration 7;
       DoSelectDuration (-2)] world0 = Done tt w2 /\
    histogram_samples w2 (bound facade0 select_duration_nanoseconds)
    = Some (omap observation_of
              (calls_for select_duration_nanoseconds
                 [DoSelectDuration 1500000; DoSelectCall;
                  DoInsertCallDuration 7; DoSelectDuration (-2)])) /\
    histogram_count
      (omap observation_of
         (calls_for select_duration_nanoseconds
            [DoSelectDuration 1500000; DoSelectCall;
             DoInsertCallDuration 7; DoSelectDuration (-2)]))
    = Z.of_nat
        (length (calls_for select_duration_nanoseconds
                   [DoSelectDuration 1500000; DoSelectCall;
                    DoInsertCallDuration 7; DoSelectDuration (-2)])).
Proof.
  split; [exact New_test |]. split; [reflexivity |].
  exact (histogram_after_run "test_" boot facade0 world0
           select_duration_nanoseconds _ New_test eq_refl).
Defined.

Lemma bound_dec i l :
  (exists e, bound i e = l) \/ (forall e, bound i e <> l).
Proof.
  destruct (decide (l ∈ bound i <$> catalogue)) as [Hin | Hnot].
  - left. apply list_elem_of_fmap in Hin as (e & -> & _). by exists e.
  - right. intros e <-. apply Hnot, list_elem_of_fmap.
    exists e. split; [done | apply catalogue_complete].
Qed.

(** X4: two runs on the same facade in the same state in which every
    method gets the same calls in the same order, however the calls of
    different methods are interleaved, both succeed and end with the
    same heap and the same registry. *)
Theorem runs_agree_method_by_method
    (i : PrometheusInstrumentation) (cs1 cs2 : list call) (w : world) :
  bound_ok i w -> separate i ->
  (forall e, calls_for e cs1 = calls_for e cs2) ->
  exists w1 w2,
    run i cs1 w = Done tt w1 /\
    run i cs2 w = Done tt w2 /\
    heap w1 = heap w2 /\
    registry w1 = registry w2.
Proof.
  intros Hok Hsep Hsame.
  destruct (run_succeeds i cs1 w Hok) as (w1 & Hrun1 & _).
  destruct (run_succeeds i cs2 w Hok) as (w2 & Hrun2 & _).
  exists w1, w2. split; [done |]. split; [done |]. split.
  - apply list_eq. intros l.
    destruct (bound_dec i l) as [[e He] | Hfree].
    + subst l. destruct (Hok e) as (m & Hm & _).
      etrans; [exact (run_object i cs1 w w1 e m Hsep Hrun1 Hm) |].
      symmetry.
      etrans; [exact (run_object i cs2 w w2 e m Hsep Hrun2 Hm) |].
      unfold updates_for. by rewrite Hsame.
    + etrans; [apply (run_frame i cs1 w w1 l Hrun1); intros; apply Hfree |].
      symmetry. apply (run_frame i cs2 w w2 l Hrun2); intros; apply Hfree.
  - rewrite (run_registry _ _ _ _ Hrun1). by rewrite (run_registry _ _ _ _ Hrun2).
Qed.

Lemma runs_agree_method_by_method_witness :
  bound_ok facade0 world0 /\ separate facade0 /\
  (forall e, calls_for e [DoInsertCall; DoSelectKeys 3; DoSelectKeys 4]
             = calls_for e [DoSelectKeys 3; DoSelectKeys 4; DoInsertCall]) /\
  exists w1 w2,
    run facade0 [DoInsertCall; DoSelectKeys 3; DoSelectKeys 4] world0
    = Done tt w1 /\
    run facade0 [DoSelectKeys 3; DoSelectKeys 4; DoInsertCall] world0
    = Done tt w2 /\
    heap w1 = heap w2 /\
    registry w1 = registry w2.
Proof.
  assert (forall e, calls_for e [DoInsertCall; DoSelectKeys 3; DoSelectKeys 4]
                    = calls_for e [DoSelectKeys 3; DoSelectKeys 4; DoInsertCall])
    as Hsame by (intros e; destruct e; reflexivity).
  split; [exact bound_ok0 |]. split; [exact separate0 |].
  split; [exact Hsame |].
  exact (runs_agree_method_by_method facade0 _ _ world0
           bound_ok0 separate0 Hsame).
Defined.

Lemma run_trace i cs w w' :
  run i cs w = Done tt w' ->
  trace w' = trace w ++ (logged i <$> cs) /\
  length (heap w') = length (heap w) /\
  forall l, kind_of <$> heap w' !! l = kind_of <$> heap w !! l.
Proof.
  revert w. induction cs as [| c cs IH]; intros w Hrun.
  - injection Hrun as <-. by rewrite app_nil_r.
  - rewrite run_cons in Hrun.
    destruct (exec i c w) as [[] w1 | f] eqn:Hex; [| done].
    destruct (IH _ Hrun) as (-> & -> & Hkind).
    apply exec_inv in Hex as (m & m' & Hm & Hu & ->). cbn [heap trace].
    split; [by rewrite fmap_cons, <- app_assoc |].
    split; [apply length_insert |].
    intros l. rewrite Hkind. cbn [heap].
    destruct (decide (l = bound i (event_of c))) as [-> | Hne].
    + rewrite list_lookup_insert_eq by by eapply lookup_lt_Some.
      etrans; [| symmetry; exact (f_equal (fmap kind_of) Hm)].
      simpl. f_equal. by eapply apply_update_kind_of.
    + by rewrite list_lookup_insert_ne.
Qed.

(** X5: a run of calls on a well bound facade succeeds and makes
    exactly one call into the library for each of its calls, in their
    order, each an update; it registers nothing, creates and removes no
    metric object, and changes the type of none. *)
Theorem run_only_updates
    (i : PrometheusInstrumentation) (cs : list call) (w : world) :
  bound_ok i w ->
  exists w',
    run i cs w = Done tt w' /\
    trace w' = trace w ++ (logged i <$> cs) /\
    registry w' = registry w /\
    length (heap w') = length (heap w) /\
    forall l, kind_of <$> heap w' !! l = kind_of <$> heap w !! l.
Proof.
  intros Hok. destruct (run_succeeds i cs w Hok) as (w' & Hrun & _).
  destruct (run_trace i cs w w' Hrun) as (Htr & Hlen & Hkind).
  exists w'. split; [done |]. split; [done |].
  split; [by eapply run_registry | done].
Qed.

Lemma run_only_updates_witness :
  bound_ok facade0 world0 /\
  exists w',
    run facade0 [DoDeleteCall; DoDeleteRecordCount 2; DoDeleteCallDuration 90]
        world0 = Done tt w' /\
    trace w'
    = trace world0
        ++ (logged facade0
              <$> [DoDeleteCall; DoDeleteRecordCount 2;
                   DoDeleteCallDuration 90]) /\
    registry w' = registry world0 /\
    length (heap w') = length (heap world0) /\
    forall l, kind_of <$> heap w' !! l = kind_of <$> heap world0 !! l.
Proof.
  split; [exact bound_ok0 |].
  exact (run_only_updates facade0
           [DoDeleteCall; DoDeleteRecordCount 2; DoDeleteCallDuration 90]
           world0 bound_ok0).
Defined.

(** * Construction, once more *)

Lemma find_first {A} (f : A -> bool) (l : list A) x :
  find f l = Some x ->
  exists k, l !! k = Some x /\ f x = true /\
            forall j y, (j < k)%nat -> l !! j = Some y -> f y = false.
Proof.
  induction l as [| a l IH]; [done |]. simpl.
  destruct (f a) eqn:Ha.
  - intros [= ->]. exists 0%nat. repeat split; [done |]. intros j y Hj. lia.
  - intros Hx. destruct (IH Hx) as (k & Hk & Hfx & Hbefore).
    exists (S k). repeat split; [done .. |].
    intros [| j] y Hj Hy; [by injection Hy as <- |].
    apply (Hbefore j); [lia | done].
Qed.

(** X6: [New] succeeds exactly when none of its 28 names is
    registered.  When it aborts, it does so on one of its names that
    is registered, the first one in the order of the fields. *)
Theorem New_succeeds_iff_names_free (prefix : string) (w : world) :
  ((exists i w', New prefix w = Done i w')
   <-> forall e, is_registered (prefix +:+ suffix e) (registry w) = false) /\
  forall f, New prefix w = Panic f ->
    exists e,
      f = AlreadyRegistered (prefix +:+ suffix e) /\
      is_registered (prefix +:+ suffix e) (registry w) = true /\
      forall e', (index e' < index e)%nat ->
                 is_registered (prefix +:+ suffix e') (registry w) = false.
Proof.
  split.
  - split.
    + intros (i & w' & Hnew). by apply New_inv in Hnew as (_ & _ & Hfree).
    + intros Hfree. eexists _, _. by apply New_run.
  - intros f. rewrite New_eq.
    destruct (find _ catalogue) as [e |] eqn:Hfind; [| done].
    intros [= <-]. apply find_first in Hfind as (k & Hk & He & Hbefore).
    exists e. split; [done |]. split; [done |].
    intros e' Hlt.
    assert (k = index e) as ->.
    { eapply NoDup_lookup; [apply NoDup_catalogue | done |].
      apply catalogue_index. }
    apply (Hbefore (index e') e' Hlt), catalogue_index.
Qed.

Lemma New_keeps_bound_ok prefix w i w' i0 :
  New prefix w = Done i w' -> bound_ok i0 w -> bound_ok i0 w'.
Proof.
  intros Hnew Hok e. apply New_inv in Hnew as (_ & -> & _).
  destruct (Hok e) as (m & Hm & Hk). exists m. split; [| done].
  rewrite world_after_old; [done |]. by eapply lookup_lt_Some.
Qed.

(** X7: a successful [New] adds 28 objects to the heap and 28 entries
    to the registry and changes nothing that was there: every object
    keeps its state, every facade that was well bound stays well bound,
    and no metric of the new facade is a metric of such a facade. *)
Theorem New_preserves_existing
    (prefix : string) (w : world) (i : PrometheusInstrumentation)
    (w' : world) :
  New prefix w = Done i w' ->
  (exists h r,
      heap w' = heap w ++ h /\ length h = 28%nat /\
      registry w' = registry w ++ r /\ length r = 28%nat) /\
  (forall l m, heap w !! l = Some m -> heap w' !! l = Some m) /\
  (forall i0, bound_ok i0 w -> bound_ok i0 w') /\
  (forall i0 e e0, bound_ok i0 w -> bound i e <> bound i0 e0).
Proof.
  intros Hnew. apply New_inv in Hnew as (-> & -> & _).
  assert (forall l m, heap w !! l = Some m ->
                      heap (world_after prefix w) !! l = Some m) as Hold.
  { intros l m Hm. rewrite world_after_old; [done |]. by eapply lookup_lt_Some. }
  split.
  { eexists _, _. unfold world_after. cbn [heap registry].
    split; [reflexivity |]. split; [reflexivity |]. split; reflexivity. }
  split; [done |]. split.
  - intros i0 Hok e. destruct (Hok e) as (m & Hm & Hk). exists m. auto.
  - intros i0 e e0 Hok. rewrite bound_facade_at.
    destruct (Hok e0) as (m & Hm & _). apply lookup_lt_Some in Hm. lia.
Qed.

Lemma New_preserves_existing_witness :
  New "b_" world0 = Done (facade_at 28) (world_after "b_" world0) /\
  (exists h r,
      heap (world_after "b_" world0) = heap world0 ++ h /\ length h = 28%nat /\
      registry (world_after "b_" world0) = registry world0 ++ r
      /\ length r = 28%nat) /\
  (forall l m, heap world0 !! l = Some m ->
               heap (world_after "b_" world0) !! l = Some m) /\
  (forall i0, bound_ok i0 world0 -> bound_ok i0 (world_after "b_" world0)) /\
  (forall i0 e e0, bound_ok i0 world0 -> bound (facade_at 28) e <> bound i0 e0).
Proof.
  assert (New "b_" world0 = Done (facade_at 28) (world_after "b_" world0))
    as Hnew by (vm_compute; reflexivity).
  split; [exact Hnew |].
  exact (New_preserves_existing "b_" world0 (facade_at 28)
           (world_after "b_" world0) Hnew).
Defined.

(** * The states of a process *)

Lemma step_registry_ok w w' : registry_ok w -> step w w' -> registry_ok w'.
Proof.
  intros [Hnd Hlive] [(prefix & i & Hnew) | (i & c & Hex)].
  - apply New_inv in Hnew as (-> & -> & Hfree). split.
    + rewrite world_after_registry, fmap_app, registrations_names.
      apply NoDup_app. split; [done |]. split; [| apply names_NoDup].
      intros n Hn Hn'. apply list_elem_of_fmap in Hn' as (e & -> & _).
      apply list_elem_of_fmap in Hn as (x & Hx & Hin).
      assert (is_registered (prefix +:+ suffix e) (registry w) = true) as Hreg
        by (apply is_registered_true; by exists x).
      by rewrite Hfree in Hreg.
    + intros x. rewrite world_after_registry.
      unfold world_after. cbn [heap].
      rewrite length_app, length_fmap, catalogue_length.
      intros [Hx | Hx]%elem_of_app.
      * apply Hlive in Hx. lia.
      * unfold registrations in Hx.
        apply list_elem_of_fmap in Hx as (e & -> & _). cbn [reg_metric].
        rewrite bound_facade_at. pose proof (index_lt e). lia.
  - apply exec_inv in Hex as (m & m' & _ & _ & ->). split; [done |].
    intros x Hx. cbn [heap]. rewrite length_insert. by apply Hlive.
Qed.

(** X8: in every state that a process reaches from its start by
    constructing facades and calling methods, the registry holds every
    name once and every entry refers to an object of the heap. *)
Theorem registry_stays_ok (w : world) : reachable boot w -> registry_ok w.
Proof.
  induction 1 as [| w w' _ IH Hstep].
  - split; [constructor |]. intros x Hx. by apply elem_of_nil in Hx.
  - by eapply step_registry_ok.
Qed.

Lemma reachable_world0 : reachable boot world0.
Proof.
  apply (reach_step boot boot world0 (reach_here boot)).
  left. exists "test_", facade0. exact New_test.
Defined.

Lemma registry_stays_ok_witness : reachable boot world0 /\ registry_ok world0.
Proof.
  split; [exact reachable_world0 |].
  exact (registry_stays_ok world0 reachable_world0).
Defined.

Lemma step_bound_ok i w w' : bound_ok i w -> step w w' -> bound_ok i w'.
Proof.
  intros Hok [(prefix & i' & Hnew) | (i' & c & Hex)].
  - by eapply New_keeps_bound_ok.
  - apply exec_inv in Hex as (m & m' & Hm & Hu & ->).
    intros e. cbn [heap]. destruct (Hok e) as (m0 & Hm0 & Hk0).
    destruct (decide (bound i e = bound i' (event_of c))) as [Heq | Hne].
    + exists m'. rewrite Heq. split.
      * apply list_lookup_insert_eq. by eapply lookup_lt_Some.
      * rewrite Heq in Hm0.
        assert (m0 = m) as -> by congruence.
        rewrite <- Hk0. by eapply apply_update_kind_of.
    + exists m0. by rewrite list_lookup_insert_ne.
Qed.

Lemma reachable_bound_ok i w w' :
  bound_ok i w -> reachable w w' -> bound_ok i w'.
Proof. induction 2; [done | by eapply step_bound_ok]. Qed.

(** X9: the methods of a facade that [New] has returned never fail:
    whatever facades are constructed and whatever methods are called
    afterwards, with whatever arguments, a call of any of its methods
    succeeds, and changes the object in the field of its event only. *)
Theorem methods_never_fail
    (prefix : string) (w0 : world) (i : PrometheusInstrumentation)
    (w1 w2 : world) (c : call) :
  New prefix w0 = Done i w1 -> reachable w1 w2 ->
  exists w3,
    exec i c w2 = Done tt w3 /\
    forall l, l <> bound i (event_of c) -> heap w3 !! l = heap w2 !! l.
Proof.
  intros Hnew Hreach.
  destruct (New_bound_ok _ _ _ _ Hnew) as [Hok _].
  pose proof (reachable_bound_ok i w1 w2 Hok Hreach) as Hok2.
  destruct (exec_spec i c w2 Hok2) as (m & m' & _ & _ & Hrun).
  specialize (Hrun (registry w2) (trace w2)). rewrite world_eta in Hrun.
  eexists. split; [exact Hrun |].
  intros l Hl. by eapply exec_frame.
Qed.

Lemma methods_never_fail_witness :
  New "test_" boot = Done facade0 world0 /\
  reachable world0 (world_after "b_" world0) /\
  exists w3,
    exec facade0 (DoWalkKeys (-9)) (world_after "b_" world0) = Done tt w3 /\
    forall l, l <> bound facade0 (event_of (DoWalkKeys (-9))) ->
              heap w3 !! l = heap (world_after "b_" world0) !! l.
Proof.
  assert (reachable world0 (world_after "b_" world0)) as Hreach.
  { apply (reach_step world0 world0 _ (reach_here world0)).
    left. exists "b_", (facade_at 28). vm_compute. reflexivity. }
  split; [exact New_test |]. split; [exact Hreach |].
  exact (methods_never_fail "test_" boot facade0 world0 _ (DoWalkKeys (-9))
           New_test Hreach).
Defined.

(** * The conversion to float64, once more *)

Lemma round_mag_error a :
  0 <= a -> 2 * Z.abs (round_mag a - a) <= 2 ^ ulp_exp a.
Proof.
  intros Ha. pose proof (ulp_pos a) as Hu.
  pose proof (Z.div_mod a (2 ^ ulp_exp a) ltac:(lia)) as Hdiv.
  pose proof (Z.mod_pos_bound a (2 ^ ulp_exp a) Hu) as Hmod.
  unfold round_mag.
  destruct (Z.ltb_spec (2 * (a mod 2 ^ ulp_exp a)) (2 ^ ulp_exp a)); [lia |].
  destruct (Z.ltb_spec (2 ^ ulp_exp a) (2 * (a mod 2 ^ ulp_exp a))); [lia |].
  destruct (Z.even (a / 2 ^ ulp_exp a)); lia.
Qed.

Lemma ulp_int64 a : 0 <= a <= 2 ^ 63 -> 2 * Z.abs (round_mag a - a) <= 1024.
Proof.
  intros Ha. destruct (Z.eq_dec a (2 ^ 63)) as [-> | Hne]; [by vm_compute |].
  pose proof (round_mag_error a ltac:(lia)) as Herr.
  assert (2 ^ ulp_exp a <= 2 ^ 10); [| lia].
  apply Z.pow_le_mono_r; [lia |]. unfold ulp_exp.
  destruct (Z.le_gt_cases a 0) as [Hle | Hpos].
  - rewrite Z.log2_nonpos by done. lia.
  - assert (Z.log2 a < 63) by (apply Z.log2_lt_pow2; lia). lia.
Qed.

Lemma of_int_error n : is_int64 n -> Z.abs (of_int n - n) <= 512.
Proof.
  intros [Hlo Hhi]. unfold of_int, round.
  destruct (Z.ltb_spec n 0).
  - pose proof (ulp_int64 (- n) ltac:(lia)). lia.
  - pose proof (ulp_int64 n ltac:(lia)). lia.
Qed.

Lemma round_mag_upper a :
  2 ^ 53 <= a -> round_mag a <= 2 ^ 53 * 2 ^ ulp_exp a.
Proof.
  intros Ha. destruct (ulp_exp_large a Ha) as (He & Hlo & Hhi).
  pose proof (ulp_pos a) as Hu.
  assert (a / 2 ^ ulp_exp a < 2 ^ 53) by (apply Z.div_lt_upper_bound; lia).
  destruct (round_mag_cases a) as [-> | [-> _]]; nia.
Qed.

Lemma round_mag_mono a b : 0 <= a <= b -> round_mag a <= round_mag b.
Proof.
  intros Hab.
  destruct (Z.lt_ge_cases a (2 ^ 53)) as [Hsmall | Hlarge].
  { rewrite (round_mag_small a) by done.
    apply round_mag_ge_representable; [lia | by apply representable_small]. }
  destruct (ulp_exp_large a Hlarge) as (Hea & Hloa & Hhia).
  destruct (ulp_exp_large b ltac:(lia)) as (Heb & Hlob & Hhib).
  pose proof (ulp_pos b) as Hu.
  pose proof (round_mag_lower b ltac:(lia)) as Hlowb.
  assert (2 ^ 52 <= b / 2 ^ ulp_exp b) as Hqb
    by (apply Z.div_le_lower_bound; lia).
  destruct (Z.eq_dec (ulp_exp a) (ulp_exp b)) as [Heq | Hne].
  - pose proof (Z.div_mod a (2 ^ ulp_exp b) ltac:(lia)) as Hda.
    pose proof (Z.div_mod b (2 ^ ulp_exp b) ltac:(lia)) as Hdb.
    pose proof (Z.mod_pos_bound a (2 ^ ulp_exp b) Hu) as Hma.
    pose proof (Z.mod_pos_bound b (2 ^ ulp_exp b) Hu) as Hmb.
    assert (a / 2 ^ ulp_exp b <= b / 2 ^ ulp_exp b) as Hq
      by (apply Z.div_le_mono; lia).
    destruct (Z.eq_dec (a / 2 ^ ulp_exp b) (b / 2 ^ ulp_exp b)) as [Hqeq | Hqne].
    + unfold round_mag. rewrite Heq, Hqeq.
      rewrite Hqeq in Hda.
      destruct (Z.ltb_spec (2 * (a mod 2 ^ ulp_exp b)) (2 ^ ulp_exp b));
        destruct (Z.ltb_spec (2 * (b mod 2 ^ ulp_exp b)) (2 ^ ulp_exp b));
        destruct (Z.ltb_spec (2 ^ ulp_exp b) (2 * (a mod 2 ^ ulp_exp b)));
        destruct (Z.ltb_spec (2 ^ ulp_exp b) (2 * (b mod 2 ^ ulp_exp b)));
        destruct (Z.even (b / 2 ^ ulp_exp b)); lia.
    + assert (round_mag a <= (a / 2 ^ ulp_exp b + 1) * 2 ^ ulp_exp b).
      { destruct (round_mag_cases a) as [Hr | [Hr _]];
          rewrite Hr, Heq; lia. }
      nia.
  - assert (ulp_exp a < ulp_exp b) as Hlt.
    { assert (ulp_exp a <= ulp_exp b); [| lia]. unfold ulp_exp.
      pose proof (Z.log2_le_mono a b ltac:(lia)). lia. }
    pose proof (round_mag_upper a Hlarge) as Hup.
    assert (2 * 2 ^ ulp_exp a <= 2 ^ ulp_exp b).
    { replace (2 * 2 ^ ulp_exp a) with (2 ^ (ulp_exp a + 1))
        by (rewrite Z.pow_add_r by lia; change (2 ^ 1) with 2; lia).
      apply Z.pow_le_mono_r; lia. }
    nia.
Qed.

Lemma round_mono x y : x <= y -> round x <= round y.
Proof.
  intros Hxy. unfold round.
  destruct (Z.ltb_spec x 0); destruct (Z.ltb_spec y 0); try lia.
  - pose proof (round_mag_mono (- y) (- x) ltac:(lia)). lia.
  - pose proof (round_mag_nonneg (- x) ltac:(lia)).
    pose proof (round_mag_nonneg y ltac:(lia)). lia.
  - apply round_mag_mono. lia.
Qed.

Lemma round_opp x : round (- x) = - round x.
Proof.
  unfold round.
  destruct (Z.ltb_spec x 0); destruct (Z.ltb_spec (- x) 0); try lia.
  - by rewrite Z.opp_involutive.
  - assert (x = 0) as -> by lia. reflexivity.
Qed.

(** X10: what a method hands to its metric for a count or a duration
    in the range of an [int64] differs from that argument by at most
    512: the call succeeds and the update it logs carries such a
    value. *)
Theorem argument_error_is_bounded
    (i : PrometheusInstrumentation) (c : call) (w : world) :
  bound_ok i w ->
  exists w' u,
    exec i c w = Done tt w' /\
    last (trace w') = Some (EvUpdate (bound i (event_of c)) u) /\
    match argument_of c, u with
    | NoArgument, Increment => True
    | Count n, IncrementBy v => is_int64 n -> Z.abs (v - n) <= 512
    | Elapsed d, Add v => is_int64 (Nanoseconds d)
                          -> Z.abs (v - Nanoseconds d) <= 512
    | _, _ => False
    end.
Proof.
  intros Hok.
  destruct (exec_spec i c w Hok) as (m & m' & _ & _ & Hrun).
  specialize (Hrun (registry w) (trace w)). rewrite world_eta in Hrun.
  eexists _, (update_for (argument_of c)). split; [exact Hrun |].
  split; [cbn [trace]; apply last_snoc |].
  destruct (argument_of c); cbn [update_for]; [done | |];
    apply of_int_error.
Qed.

Lemma argument_error_is_bounded_witness :
  bound_ok facade0 world0 /\
  exists w' u,
    exec facade0 (DoSelectReturned (2 ^ 62 + 1)) world0 = Done tt w' /\
    last (trace w')
    = Some (EvUpdate (bound facade0 (event_of (DoSelectReturned (2 ^ 62 + 1))))
                     u) /\
    match argument_of (DoSelectReturned (2 ^ 62 + 1)), u with
    | NoArgument, Increment => True
    | Count n, IncrementBy v => is_int64 n -> Z.abs (v - n) <= 512
    | Elapsed d, Add v => is_int64 (Nanoseconds d)
                          -> Z.abs (v - Nanoseconds d) <= 512
    | _, _ => False
    end.
Proof.
  split; [exact bound_ok0 |].
  exact (argument_error_is_bounded facade0 (DoSelectReturned (2 ^ 62 + 1))
           world0 bound_ok0).
Defined.

(** X11: the conversion [float64(n)] in the methods keeps the order
    and the sign of its argument: a larger count or duration is never
    handed over as a smaller value, the opposite argument gives the
    opposite value, and the value is negative exactly when the argument
    is. *)
Theorem conversion_keeps_order_and_sign :
  (forall n m, n <= m -> float64_of_int n <= float64_of_int m) /\
  (forall n, float64_of_int (- n) = - float64_of_int n) /\
  (forall n, float64_of_int n < 0 <-> n < 0) /\
  (forall c1 c2 d1 d2 v1 v2,
     argument_of c1 = Elapsed d1 -> argument_of c2 = Elapsed d2 ->
     d1 <= d2 ->
     observation_of c1 = Some v1 -> observation_of c2 = Some v2 -> v1 <= v2).
Proof.
  assert (forall n m, n <= m -> float64_of_int n <= float64_of_int m) as Hmono
    by (intros n m; apply round_mono).
  split; [done |]. split; [apply round_opp |]. split.
  - intros n. split.
    + intros Hneg. destruct (Z.lt_ge_cases n 0) as [| Hn]; [done |].
      pose proof (of_int_nonneg n ltac:(lia)). unfold float64_of_int in Hneg. lia.
    + intros Hn. pose proof (Hmono n (-1) ltac:(lia)) as Hle.
      change (float64_of_int (-1)) with (-1) in Hle. lia.
  - intros c1 c2 d1 d2 v1 v2 H1 H2 Hd. unfold observation_of.
    rewrite H1, H2. intros [= <-] [= <-]. by apply Hmono.
Qed.

(** * Counters at the end of the exact range *)

Lemma add_one x : 0 <= x <= 2 ^ 53 -> Float64.add x 1 = Z.min (x + 1) (2 ^ 53).
Proof.
  intros Hx. destruct (Z.eq_dec x (2 ^ 53)) as [-> | Hne]; [by vm_compute |].
  rewrite add_exact by lia. lia.
Qed.

Lemma apply_increments k x :
  0 <= x <= 2 ^ 53 ->
  apply_updates (replicate k Increment) (CounterObj x)
  = Some (CounterObj (Z.min (x + Z.of_nat k) (2 ^ 53))).
Proof.
  revert x. induction k as [| k IH]; intros x Hx.
  - simpl. f_equal. f_equal. lia.
  - cbn [replicate apply_updates apply_update].
    rewrite add_one by done. rewrite IH by lia. f_equal. f_equal. lia.
Qed.

Lemma updates_for_no_argument e cs :
  arg e = NoArg ->
  updates_for e cs = replicate (length (calls_for e cs)) Increment.
Proof.
  intros He. unfold updates_for.
  pose proof (calls_for_event e cs) as Hev.
  induction Hev as [| c ds Hc _ IH]; [done |].
  rewrite fmap_cons. cbn [length replicate]. rewrite IH. f_equal.
  assert (arg_kind_of (argument_of c) = NoArg) as Harg
    by by rewrite <- arg_event_of, Hc.
  by destruct (argument_of c).
Qed.

(** X12: on a freshly constructed facade and after any run of calls,
    the counter of a method without argument holds the number of calls
    of that method as long as this number is at most [2^53], and [2^53]
    from then on: further calls succeed and leave it as it is. *)
Theorem event_counter_saturates
    (prefix : string) (w0 : world) (i : PrometheusInstrumentation)
    (w1 : world) (e : event) (cs : list call) :
  New prefix w0 = Done i w1 ->
  arg e = NoArg ->
  exists w2,
    run i cs w1 = Done tt w2 /\
    counter_value w2 (bound i e)
    = Some (Z.min (Z.of_nat (length (calls_for e cs))) (2 ^ 53)).
Proof.
  intros Hnew He.
  assert (kind e = KCounter) as Hk.
  { destruct (kind e) eqn:Hkind; [done |].
    apply kind_arg in Hkind. congruence. }
  destruct (New_bound_ok _ _ _ _ Hnew) as [Hok Hsep].
  apply New_inv in Hnew as (-> & -> & _).
  destruct (run_succeeds _ cs _ Hok) as (w2 & Hrun & _).
  exists w2. split; [done |]. unfold counter_value.
  rewrite (run_object _ cs _ w2 e (CounterObj 0) Hsep Hrun).
  - rewrite updates_for_no_argument by done.
    rewrite apply_increments by lia. by rewrite Z.add_0_l.
  - by rewrite world_after_lookup, Hk.
Qed.

Lemma event_counter_saturates_witness :
  New "test_" boot = Done facade0 world0 /\
  arg repair_call_count = NoArg /\
  exists w2,
    run facade0 [DoRepairCall; DoRepairRequest 5; DoRepairCall] world0
    = Done tt w2 /\
    counter_value w2 (bound facade0 repair_call_count)
    = Some (Z.min (Z.of_nat (length (calls_for repair_call_count
                     [DoRepairCall; DoRepairRequest 5; DoRepairCall])))
                  (2 ^ 53)).
Proof.
  split; [exact New_test |]. split; [reflexivity |].
  exact (event_counter_saturates "test_" boot facade0 world0
           repair_call_count _ New_test eq_refl).
Defined.

(** * The names of the metrics *)

Lemma append_assoc p a b : (p +:+ a) +:+ b = p +:+ (a +:+ b).
Proof.
  induction p as [| c p IH]; [done |]. by rewrite !append_cons, IH.
Qed.

Lemma suffix_ending e :
  suffix e
  = String.substring 0 (String.length (suffix e)
                        - String.length (name_ending (kind e))) (suffix e)
    +:+ name_ending (kind e).
Proof. by destruct e. Qed.

(** X13: the name under which [New] registers a metric tells its type:
    the name of each counter of the facade ends in [_count] and the
    name of each histogram in [_duration_nanoseconds], whatever the
    prefix, and no name has both endings. *)
Theorem name_tells_type
    (prefix : string) (w : world) (i : PrometheusInstrumentation)
    (w' : world) :
  New prefix w = Done i w' ->
  forall e, exists m stem,
    Registration (prefix +:+ suffix e) (help e) (bound i e) ∈ registry w' /\
    heap w' !! bound i e = Some m /\
    prefix +:+ suffix e = stem +:+ name_ending (kind_of m) /\
    forall stem' k, prefix +:+ suffix e = stem' +:+ name_ending k ->
                    k = kind_of m.
Proof.
  intros Hnew e. apply New_inv in Hnew as (-> & -> & _).
  exists (initial (kind e)), (prefix +:+ String.substring 0
            (String.length (suffix e) - String.length (name_ending (kind e)))
            (suffix e)).
  assert (kind_of (initial (kind e)) = kind e) as -> by by destruct (kind e).
  split.
  { rewrite world_after_registry. apply elem_of_app. right.
    unfold registrations. apply list_elem_of_fmap. exists e.
    split; [done | apply catalogue_complete]. }
  split; [apply world_after_lookup |]. split.
  { rewrite append_assoc. f_equal. apply suffix_ending. }
  intros stem' k Hk.
  assert (proper_suffix (name_ending k) (suffix e) = true
          \/ name_ending k = suffix e
          \/ proper_suffix (suffix e) (name_ending k) = true) as Hcase.
  { destruct (append_eq_cases _ _ _ _ Hk) as [(t & -> & Hs) | (t & -> & Hs)];
      (destruct (decide (t = "")) as [-> | Ht];
       [right; left; first [exact Hs | symmetry; exact Hs] |]).
    - right. right. rewrite Hs. by apply proper_suffix_append.
    - left. rewrite Hs. by apply proper_suffix_append. }
  destruct k, e; try reflexivity; exfalso;
    destruct Hcase as [Hp | [Hp | Hp]]; by vm_compute in Hp.
Qed.

Lemma name_tells_type_witness :
  New "test_" boot = Done facade0 world0 /\
  forall e, exists m stem,
    Registration ("test_" +:+ suffix e) (help e) (bound facade0 e)
      ∈ registry world0 /\
    heap world0 !! bound facade0 e = Some m /\
    "test_" +:+ suffix e = stem +:+ name_ending (kind_of m) /\
    forall stem' k, "test_" +:+ suffix e = stem' +:+ name_ending k ->
                    k = kind_of m.
Proof.
  split; [exact New_test |].
  exact (name_tells_type "test_" boot facade0 world0 New_test).
Defined.

(** * The exposition of a facade *)

Lemma elem_of_concat {A} (x : A) l ls : x ∈ l -> l ∈ ls -> x ∈ concat ls.
Proof.
  intros Hx. induction ls as [| l' ls IH]; intros Hl.
  - by apply elem_of_nil in Hl.
  - cbn [concat]. apply elem_of_app.
    apply elem_of_cons in Hl as [<- | Hl]; [by left | right; by apply IH].
Qed.

Lemma step_registry_grows w w' x : step w w' -> x ∈ registry w -> x ∈ registry w'.
Proof.
  intros [(prefix & i & Hnew) | (i & c & Hex)] Hx.
  - apply New_inv in Hnew as (_ & -> & _).
    rewrite world_after_registry. apply elem_of_app. by left.
  - by rewrite (exec_registry _ _ _ _ Hex).
Qed.

Lemma reachable_registry_grows w w' x :
  reachable w w' -> x ∈ registry w -> x ∈ registry w'.
Proof. induction 1; [done |]. intros Hx. eapply step_registry_grows; eauto. Qed.

(** X14: whatever a process does after [New] has returned a facade,
    the rendering of the registry shows every metric of the facade:
    the help line with the text that [New] gives, the type line with
    the type of the field, and for a counter the line of its current
    value. *)
Theorem facade_is_always_rendered
    (prefix : string) (w0 : world) (i : PrometheusInstrumentation)
    (w1 w2 : world) (e : event) :
  New prefix w0 = Done i w1 -> reachable w1 w2 ->
  exists m,
    heap w2 !! bound i e = Some m /\ kind_of m = kind e /\
    "# HELP " +:+ (prefix +:+ suffix e) +:+ " " +:+ help e ∈ Render w2 /\
    "# TYPE " +:+ (prefix +:+ suffix e) +:+ " " +:+ type_name m ∈ Render w2 /\
    forall v, counter_value w2 (bound i e) = Some v ->
              (prefix +:+ suffix e) +:+ " " +:+ pretty v ∈ Render w2.
Proof.
  intros Hnew Hreach.
  destruct (New_bound_ok _ _ _ _ Hnew) as [Hok _].
  destruct (reachable_bound_ok i w1 w2 Hok Hreach e) as (m & Hm & Hk).
  assert (Registration (prefix +:+ suffix e) (help e) (bound i e)
            ∈ registry w2) as Hin.
  { apply (reachable_registry_grows w1 w2 _ Hreach).
    apply New_inv in Hnew as (-> & -> & _).
    rewrite world_after_registry. apply elem_of_app. right.
    unfold registrations. apply list_elem_of_fmap. exists e.
    split; [done | apply catalogue_complete]. }
  assert (forall line,
            line ∈ render_entry (heap w2)
                     (Registration (prefix +:+ suffix e) (help e) (bound i e)) ->
            line ∈ Render w2) as Hline.
  { intros line Hl. unfold Render. eapply elem_of_concat; [exact Hl |].
    apply list_elem_of_fmap. eexists. split; [reflexivity | exact Hin]. }
  exists m. split; [done |]. split; [done |].
  assert (render_entry (heap w2)
            (Registration (prefix +:+ suffix e) (help e) (bound i e))
          = ["# HELP " +:+ (prefix +:+ suffix e) +:+ " " +:+ help e;
             "# TYPE " +:+ (prefix +:+ suffix e) +:+ " " +:+ type_name m]
            ++ render_values (prefix +:+ suffix e) m) as Hentry.
  { unfold render_entry. cbn [reg_metric reg_name reg_help].
    replace (heap w2 !! bound i e) with (Some m). done. }
  split; [apply Hline; rewrite Hentry; apply list_elem_of_here |].
  split.
  { apply Hline. rewrite Hentry.
    apply list_elem_of_further, list_elem_of_here. }
  intros v Hv. unfold counter_value in Hv.
  replace (heap w2 !! bound i e) with (Some m) in Hv.
  destruct m as [x | s]; [| done]. injection Hv as ->.
  apply Hline. rewrite Hentry.
  do 2 apply list_elem_of_further. apply list_elem_of_here.
Qed.

Lemma facade_is_always_rendered_witness :
  New "test_" boot = Done facade0 world0 /\
  reachable world0 (world_after "b_" world0) /\
  exists m,
    heap (world_after "b_" world0) !! bound facade0 walk_keys_count = Some m /\
    kind_of m = kind walk_keys_count /\
    "# HELP " +:+ ("test_" +:+ suffix walk_keys_count) +:+ " "
      +:+ help walk_keys_count ∈ Render (world_after "b_" world0) /\
    "# TYPE " +:+ ("test_" +:+ suffix walk_keys_count) +:+ " "
      +:+ type_name m ∈ Render (world_after "b_" world0) /\
    forall v,
      counter_value (world_after "b_" world0) (bound facade0 walk_keys_count)
      = Some v ->
      ("test_" +:+ suffix walk_keys_count) +:+ " " +:+ pretty v
        ∈ Render (world_after "b_" world0).
Proof.
  assert (reachable world0 (world_after "b_" world0)) as Hreach.
  { apply (reach_step world0 world0 _ (reach_here world0)).
    left. exists "b_", (facade_at 28). vm_compute. reflexivity. }
  split; [exact New_test |]. split; [exact Hreach |].
  exact (facade_is_always_rendered "test_" boot facade0 world0 _
           walk_keys_count New_test Hreach).
Defined.
